(** * Similarity scoring of the audio-fingerprinting scripts

    A shallow embedding of the scoring logic of
    [enhanced_similarity_detector.py] and [audio_similarity_detector.py]:
    the per-feature similarities and their aggregate, the two
    interpretation tables, and the fingerprint string similarity.

    Number model.  Python floats are idealised as real numbers; the one
    non-real value the scoring code can produce, NumPy's [nan], is kept as
    a separate constructor of [pyfloat].  Rounding is not modelled.
    Python exceptions are values of [exn] carried by the [result] monad.

    Library calls.  [np.corrcoef], [np.mean] and [difflib.SequenceMatcher]
    are embedded from their library sources, for the arguments the scripts
    pass them. *)

From Stdlib Require Import Reals Lra String Ascii List Arith Lia Bool.
From Stdlib Require Import Sorting.Permutation Sorting.Mergesort Orders.
Import ListNotations.

(* ================================================================== *)
(** ** Exceptions and the error monad *)

Inductive exn : Set :=
| ZeroDivisionError   (* float division by zero *)
| ValueError.         (* numpy: array dimensions must match *)

Inductive result (A : Type) : Type :=
| Ok (a : A)
| Raise (e : exn).

Arguments Ok {A} a.
Arguments Raise {A} e.

Definition bind {A B : Type} (m : result A) (k : A -> result B) : result B :=
  match m with
  | Ok a => k a
  | Raise e => Raise e
  end.

Notation "x <- m ;; k" := (bind m (fun x => k))
  (at level 61, m at next level, right associativity).

(* ================================================================== *)
(** ** Floats *)

Inductive pyfloat : Type :=
| Num (r : R)
| NaN.

Open Scope R_scope.

(** Python's [max(a, b)]: the first argument unless the second is
    strictly greater. *)
Definition py_max (a b : R) : R := if Rlt_dec a b then b else a.

(** Python's [abs]. *)
Definition py_abs (a : R) : R := Rabs a.

(** Python's float division [x / y]. *)
Definition py_div (x y : R) : result R :=
  if Req_dec_T y 0 then Raise ZeroDivisionError else Ok (x / y).

(** [float_add]: float addition, where [nan] absorbs. *)
Definition float_add (a b : pyfloat) : pyfloat :=
  match a, b with
  | Num x, Num y => Num (x + y)
  | _, _ => NaN
  end.

(** [np.mean] of a list of floats. *)
Definition np_mean (l : list pyfloat) : pyfloat :=
  match l with
  | [] => NaN
  | _ =>
      match fold_left float_add l (Num 0) with
      | Num s => Num (s / INR (length l))
      | NaN => NaN
      end
  end.

(** Float comparison [s >= c] against a literal: false on [nan]. *)
Definition float_ge (s : pyfloat) (c : R) : bool :=
  match s with
  | Num x => if Rle_dec c x then true else false
  | NaN => false
  end.

(* ================================================================== *)
(** ** [np.corrcoef(x, y)[0, 1]] for two 1-D arrays

    NumPy is a library the scripts call.  The definition follows
    [numpy.cov] and [numpy.corrcoef]: the two arrays are stacked (which
    raises [ValueError] when their lengths differ), each row is centred on
    its mean, the covariance matrix is the product of the centred rows
    scaled by [1 / (N - 1)], every entry is divided by the two standard
    deviations, and the result is clipped to [[-1, 1]].  Divisions by zero
    inside NumPy do not raise: [0 / 0] is [nan]. *)

Definition Rsum (l : list R) : R := fold_right Rplus 0 l.

Definition average (v : list R) : R := Rsum v / INR (length v).

Definition centre (v : list R) : list R := map (fun x => x - average v) v.

Fixpoint dot (u w : list R) : R :=
  match u, w with
  | x :: u', y :: w' => x * y + dot u' w'
  | _, _ => 0
  end.

Definition cov (u w : list R) : R :=
  dot (centre u) (centre w) * (1 / (INR (length u) - 1)).

Definition np_clip (x lo hi : R) : R :=
  if Rlt_dec x lo then lo else if Rlt_dec hi x then hi else x.

Definition corrcoef (x y : list R) : result pyfloat :=
  if negb (length x =? length y)%nat then Raise ValueError
  else if (length x <=? 1)%nat then Ok NaN
  else
    let c01 := cov x y in
    let stddev0 := sqrt (cov x x) in
    let stddev1 := sqrt (cov y y) in
    if Req_dec_T stddev0 0 then Ok NaN
    else if Req_dec_T stddev1 0 then Ok NaN
    else Ok (Num (np_clip (c01 / stddev0 / stddev1) (-1) 1)).

(* ================================================================== *)
(** ** [enhanced_similarity_detector.py] *)

Open Scope string_scope.

(** The dictionary returned by [analyze_audio_characteristics]. *)
Record Characteristics : Type := mkCharacteristics {
  duration : R;
  sample_rate : Z;
  rms_energy : R;
  zero_crossing_rate_mean : R;
  spectral_centroid_mean : R;
  spectral_rolloff_mean : R;
  spectral_bandwidth_mean : R;
  mfcc_mean : list R;
  chroma_mean : list R;
  tempo : R;
  harmonic_ratio : R;
  percussive_ratio : R
}.

(** The dictionary returned by [enhanced_similarity_detection]; the
    [similarities] dictionary keeps its insertion order. *)
Record Report : Type := mkReport {
  characteristics1 : Characteristics;
  characteristics2 : Characteristics;
  similarities : list (string * pyfloat);
  overall_similarity : pyfloat
}.

(** [max(0, 1 - abs(a - b) / max(a, b))], the expression repeated for
    duration, energy, spectral centroid, spectral rolloff and tempo. *)
Definition closeness (a b : R) : result R :=
  let diff := py_abs (a - b) in
  q <- py_div diff (py_max a b) ;;
  Ok (py_max 0 (1 - q)).

(** [max(0, 1 - abs(a - b))], used for the harmonic and percussive
    ratios. *)
Definition ratio_closeness (a b : R) : R :=
  let diff := py_abs (a - b) in
  py_max 0 (1 - diff).

(** The scoring part of [enhanced_similarity_detection], from the two
    characteristics dictionaries on. *)
Definition enhanced_similarity_detection (char1 char2 : Characteristics)
  : result Report :=
  s_duration <- closeness (duration char1) (duration char2) ;;
  s_energy <- closeness (rms_energy char1) (rms_energy char2) ;;
  s_centroid <- closeness (spectral_centroid_mean char1)
                          (spectral_centroid_mean char2) ;;
  s_rolloff <- closeness (spectral_rolloff_mean char1)
                         (spectral_rolloff_mean char2) ;;
  s_mfcc <- corrcoef (mfcc_mean char1) (mfcc_mean char2) ;;
  s_chroma <- corrcoef (chroma_mean char1) (chroma_mean char2) ;;
  s_tempo <- closeness (tempo char1) (tempo char2) ;;
  let s_harmonic := ratio_closeness (harmonic_ratio char1)
                                    (harmonic_ratio char2) in
  let s_percussive := ratio_closeness (percussive_ratio char1)
                                      (percussive_ratio char2) in
  let sims :=
    [ ("duration", Num s_duration);
      ("energy", Num s_energy);
      ("spectral_centroid", Num s_centroid);
      ("spectral_rolloff", Num s_rolloff);
      ("mfcc", s_mfcc);
      ("chroma", s_chroma);
      ("tempo", Num s_tempo);
      ("harmonic_ratio", Num s_harmonic);
      ("percussive_ratio", Num s_percussive) ] in
  Ok {| characteristics1 := char1;
        characteristics2 := char2;
        similarities := sims;
        overall_similarity := np_mean (map snd sims) |}.

(** Dictionary lookup [d[key]] on an insertion-ordered dictionary. *)
Fixpoint dict_get (key : string) (d : list (string * pyfloat))
  : option pyfloat :=
  match d with
  | [] => None
  | (k, v) :: d' => if String.eqb key k then Some v else dict_get key d'
  end.

(** The interpretation chain of [main_enhanced_analysis]. *)
Definition main_enhanced_interpretation (overall : pyfloat) : string :=
  if float_ge overall 0.8 then "VERY SIMILAR"
  else if float_ge overall 0.6 then "SIMILAR"
  else if float_ge overall 0.4 then "SOMEWHAT SIMILAR"
  else if float_ge overall 0.2 then "SLIGHTLY SIMILAR"
  else "DIFFERENT".

(* ================================================================== *)
(** ** [audio_similarity_detector.py]: [interpret_similarity] *)

Definition interpret_similarity (similarity_score : pyfloat) : string :=
  if float_ge similarity_score 0.95 then
    "IDENTICAL - Same audio file"
  else if float_ge similarity_score 0.8 then
    "VERY SIMILAR - Likely same content with minor differences"
  else if float_ge similarity_score 0.6 then
    "SIMILAR - Related audio content"
  else if float_ge similarity_score 0.4 then
    "SOMEWHAT SIMILAR - Some common characteristics"
  else if float_ge similarity_score 0.2 then
    "SLIGHTLY SIMILAR - Minimal common features"
  else
    "DIFFERENT - Unrelated audio content".

(** The six tiers of the interpretation table, lowest first. *)
Inductive Label : Set :=
| DIFFERENT
| SLIGHTLY_SIMILAR
| SOMEWHAT_SIMILAR
| SIMILAR
| VERY_SIMILAR
| IDENTICAL.

Definition label_name (l : Label) : string :=
  match l with
  | DIFFERENT => "DIFFERENT"
  | SLIGHTLY_SIMILAR => "SLIGHTLY_SIMILAR"
  | SOMEWHAT_SIMILAR => "SOMEWHAT_SIMILAR"
  | SIMILAR => "SIMILAR"
  | VERY_SIMILAR => "VERY_SIMILAR"
  | IDENTICAL => "IDENTICAL"
  end.

Definition label_rank (l : Label) : nat :=
  match l with
  | DIFFERENT => 0
  | SLIGHTLY_SIMILAR => 1
  | SOMEWHAT_SIMILAR => 2
  | SIMILAR => 3
  | VERY_SIMILAR => 4
  | IDENTICAL => 5
  end.

(** The tier name carried by a message: the text before [" - "], with
    spaces written as underscores. *)
Fixpoint headline (s : string) : string :=
  match s with
  | EmptyString => EmptyString
  | String " " (String "-" (String " " _)) => EmptyString
  | String c rest =>
      String (if Ascii.eqb c " " then "_"%char else c) (headline rest)
  end.

Definition label_of_message (s : string) : option Label :=
  find (fun l => String.eqb (headline s) (label_name l))
       [DIFFERENT; SLIGHTLY_SIMILAR; SOMEWHAT_SIMILAR; SIMILAR;
        VERY_SIMILAR; IDENTICAL].

(** The table of section 4.1 of the specification, as a relation between
    a real score and a tier. *)
Definition table_4_1 (x : R) (l : Label) : Prop :=
  match l with
  | IDENTICAL => 0.95 <= x
  | VERY_SIMILAR => 0.80 <= x < 0.95
  | SIMILAR => 0.60 <= x < 0.80
  | SOMEWHAT_SIMILAR => 0.40 <= x < 0.60
  | SLIGHTLY_SIMILAR => 0.20 <= x < 0.40
  | DIFFERENT => x < 0.20
  end.


(* ================================================================== *)
(** ** Sample inputs *)

Close Scope string_scope.
Open Scope R_scope.

(** A ten-second clip. *)
Definition clipA : Characteristics :=
  {| duration := 10; sample_rate := 22050%Z; rms_energy := 0.5;
     zero_crossing_rate_mean := 0.1; spectral_centroid_mean := 2000;
     spectral_rolloff_mean := 4000; spectral_bandwidth_mean := 1500;
     mfcc_mean := [1; 2; 3]; chroma_mean := [0; 1];
     tempo := 120; harmonic_ratio := 0.6; percussive_ratio := 0.4 |}.

(** [clipA] with its cepstral and chroma profiles reversed. *)
Definition clipB : Characteristics :=
  {| duration := 10; sample_rate := 22050%Z; rms_energy := 0.5;
     zero_crossing_rate_mean := 0.1; spectral_centroid_mean := 2000;
     spectral_rolloff_mean := 4000; spectral_bandwidth_mean := 1500;
     mfcc_mean := [3; 2; 1]; chroma_mean := [1; 0];
     tempo := 120; harmonic_ratio := 0.6; percussive_ratio := 0.4 |}.


(** Two clips without spectral content above zero hertz. *)
Definition dc1 : Characteristics :=
  {| duration := 10; sample_rate := 22050%Z; rms_energy := 0.5;
     zero_crossing_rate_mean := 0; spectral_centroid_mean := 0;
     spectral_rolloff_mean := 0; spectral_bandwidth_mean := 0;
     mfcc_mean := [1; 2; 3]; chroma_mean := [0; 1];
     tempo := 120; harmonic_ratio := 0.6; percussive_ratio := 0.4 |}.

Definition dc2 : Characteristics :=
  {| duration := 12; sample_rate := 44100%Z; rms_energy := 0.25;
     zero_crossing_rate_mean := 0; spectral_centroid_mean := 0;
     spectral_rolloff_mean := 0; spectral_bandwidth_mean := 0;
     mfcc_mean := [1; 2; 3]; chroma_mean := [0; 1];
     tempo := 90; harmonic_ratio := 0.6; percussive_ratio := 0.4 |}.






(* ================================================================== *)
(** ** Predicates used by the statements *)

(** Section 3 of the specification: the range of every scalar field of a
    feature summary. *)
Definition valid_summary (c : Characteristics) : Prop :=
  0 < duration c /\ (0 < sample_rate c)%Z /\ 0 <= rms_energy c /\
  0 <= zero_crossing_rate_mean c /\ 0 <= spectral_centroid_mean c /\
  0 <= spectral_rolloff_mean c /\ 0 <= spectral_bandwidth_mean c /\
  0 < tempo c /\ 0 <= harmonic_ratio c /\ 0 <= percussive_ratio c.

(** A vector all of whose entries are equal (zero variance). *)
Definition constant (v : list R) : Prop :=
  forall a b, In a v -> In b v -> a = b.

(** A float that is a real number within [[lo, hi]]. *)
Definition within (lo hi : R) (v : pyfloat) : Prop :=
  match v with
  | Num x => lo <= x <= hi
  | NaN => False
  end.


(** The value the scalar-closeness formula denotes over the reals. *)
Definition closeness_formula (a b : R) : R :=
  Rmax 0 (1 - Rabs (a - b) / Rmax a b).

(* ================================================================== *)
(** ** [difflib.SequenceMatcher(None, a, b).ratio()]

    [calculate_fingerprint_similarity] delegates to the standard library's
    [SequenceMatcher] with [isjunk = None] and the default
    [autojunk = True].  The definitions below follow [difflib.py]:
    [__chain_b], [find_longest_match], [get_matching_blocks], [ratio] and
    [_calculate_ratio].  Sequences are lists of characters, a [Match] is
    the triple (start in a, start in b, size). *)

Definition Match : Type := (nat * nat * nat)%type.

Definition match_size (m : Match) : nat := snd m.

Section SequenceMatcher.

Variables a b : list ascii.

Definition elt_at (s : list ascii) (i : nat) : ascii := nth i s zero.

(** Ascending positions of [elt] in [s], counted from [off]. *)
Fixpoint indices_from (off : nat) (elt : ascii) (s : list ascii)
  : list nat :=
  match s with
  | [] => []
  | c :: s' =>
      if Ascii.eqb c elt then off :: indices_from (S off) elt s'
      else indices_from (S off) elt s'
  end.

(** [__chain_b]: with [n = len(b) >= 200], an element occurring more
    than [n // 100 + 1] times is popular and is deleted from [b2j]. *)
Definition bpopular (elt : ascii) : bool :=
  let n := length b in
  (200 <=? n)%nat &&
  (n / 100 + 1 <? length (indices_from 0 elt b))%nat.

(** [b2j.get(elt, [])]. *)
Definition b2j_get (elt : ascii) : list nat :=
  if bpopular elt then [] else indices_from 0 elt b.

(** [bjunk] is empty because [isjunk] is [None]. *)
Definition isbjunk (elt : ascii) : bool := false.

(** [j2len.get(j, 0)] on a dictionary kept newest entry first. *)
Fixpoint j2len_get (j2len : list (nat * nat)) (j : nat) : nat :=
  match j2len with
  | [] => 0
  | (j', k) :: rest => if (j' =? j)%nat then k else j2len_get rest j
  end.

(** [j2len.get(j - 1, 0)]; the key [-1] is never present. *)
Definition j2len_get_pred (j2len : list (nat * nat)) (j : nat) : nat :=
  match j with
  | O => 0
  | S j' => j2len_get j2len j'
  end.

(** The inner [for j in b2j.get(a[i], nothing)] loop of
    [find_longest_match]. *)
Fixpoint scan_row (blo bhi i : nat) (j2len : list (nat * nat))
         (js : list nat) (newj2len : list (nat * nat)) (best : Match)
  : list (nat * nat) * Match :=
  match js with
  | [] => (newj2len, best)
  | j :: js' =>
      if (j <? blo)%nat then
        scan_row blo bhi i j2len js' newj2len best
      else if (bhi <=? j)%nat then (newj2len, best)
      else
        let k := (j2len_get_pred j2len j + 1)%nat in
        let newj2len' := (j, k) :: newj2len in
        let best' :=
          if (match_size best <? k)%nat
          then ((i + 1 - k)%nat, (j + 1 - k)%nat, k)
          else best in
        scan_row blo bhi i j2len js' newj2len' best'
  end.

(** The outer [for i in range(alo, ahi)] loop. *)
Fixpoint scan_rows (blo bhi : nat) (rows : list nat)
         (j2len : list (nat * nat)) (best : Match) : Match :=
  match rows with
  | [] => best
  | i :: rows' =>
      let '(newj2len, best') :=
        scan_row blo bhi i j2len (b2j_get (elt_at a i)) [] best in
      scan_rows blo bhi rows' newj2len best'
  end.

(** [while besti > alo and bestj > blo and <junk test on b[bestj-1]>
    and a[besti-1] == b[bestj-1]]: step the match one element to the
    left.  [junk] selects the non-junk loop ([false]) or the junk loop
    ([true]). *)
Fixpoint extend_left (junk : bool) (alo blo besti bestj bestsize : nat)
  : Match :=
  match besti, bestj with
  | S i', S j' =>
      if (alo <? besti)%nat && (blo <? bestj)%nat &&
         Bool.eqb (isbjunk (elt_at b j')) junk &&
         Ascii.eqb (elt_at a i') (elt_at b j')
      then extend_left junk alo blo i' j' (bestsize + 1)
      else (besti, bestj, bestsize)
  | _, _ => (besti, bestj, bestsize)
  end.

(** [while besti+bestsize < ahi and bestj+bestsize < bhi and <junk test>
    and a[besti+bestsize] == b[bestj+bestsize]]: grow the match to the
    right.  [steps] bounds the iterations; the caller passes
    [ahi - (besti + bestsize)], after which the loop test is false. *)
Fixpoint extend_right (junk : bool) (steps ahi bhi besti bestj bestsize : nat)
  : Match :=
  match steps with
  | O => (besti, bestj, bestsize)
  | S steps' =>
      if (besti + bestsize <? ahi)%nat && (bestj + bestsize <? bhi)%nat &&
         Bool.eqb (isbjunk (elt_at b (bestj + bestsize))) junk &&
         Ascii.eqb (elt_at a (besti + bestsize)) (elt_at b (bestj + bestsize))
      then extend_right junk steps' ahi bhi besti bestj (bestsize + 1)
      else (besti, bestj, bestsize)
  end.

Definition extend (junk : bool) (alo ahi blo bhi : nat) (m : Match)
  : Match :=
  let '(besti, bestj, bestsize) := m in
  let '(besti1, bestj1, bestsize1) :=
    extend_left junk alo blo besti bestj bestsize in
  extend_right junk (ahi - (besti1 + bestsize1)) ahi bhi
               besti1 bestj1 bestsize1.

Definition find_longest_match (alo ahi blo bhi : nat) : Match :=
  let best := scan_rows blo bhi (seq alo (ahi - alo)) [] (alo, blo, 0%nat) in
  let best := extend false alo ahi blo bhi best in
  extend true alo ahi blo bhi best.

(** The [while queue] loop of [get_matching_blocks].  The queue is a
    stack: its head is the element [queue.pop()] returns, and
    [queue.append] is a cons.  [None] when [fuel] iterations do not empty
    the queue. *)
Fixpoint blocks_loop (fuel : nat) (queue : list (nat * nat * nat * nat))
         (matching_blocks : list Match) : option (list Match) :=
  match queue with
  | [] => Some matching_blocks
  | (alo, ahi, blo, bhi) :: queue' =>
      match fuel with
      | O => None
      | S fuel' =>
          let x := find_longest_match alo ahi blo bhi in
          let '(i, j, k) := x in
          if (k =? 0)%nat then blocks_loop fuel' queue' matching_blocks
          else
            let queue1 :=
              if (alo <? i)%nat && (blo <? j)%nat
              then (alo, i, blo, j) :: queue' else queue' in
            let queue2 :=
              if (i + k <? ahi)%nat && (j + k <? bhi)%nat
              then ((i + k)%nat, ahi, (j + k)%nat, bhi) :: queue1
              else queue1 in
            blocks_loop fuel' queue2 (matching_blocks ++ [x])
      end
  end.

End SequenceMatcher.

(** Tuple comparison [m1 <= m2], the order [matching_blocks.sort()]
    uses. *)
Definition match_leb (m1 m2 : Match) : bool :=
  let '(i1, j1, k1) := m1 in
  let '(i2, j2, k2) := m2 in
  if (i1 <? i2)%nat then true
  else if (i2 <? i1)%nat then false
  else if (j1 <? j2)%nat then true
  else if (j2 <? j1)%nat then false
  else (k1 <=? k2)%nat.

Module MatchOrder <: TotalLeBool.
Definition t := Match.
Definition leb := match_leb.
Lemma leb_total : forall m1 m2, leb m1 m2 = true \/ leb m2 m1 = true.
Proof.
  intros [[i1 j1] k1] [[i2 j2] k2]; unfold leb, match_leb.
  destruct (i1 <? i2)%nat eqn:E1; [now left|].
  destruct (i2 <? i1)%nat eqn:E2; [now right|].
  destruct (j1 <? j2)%nat eqn:E3; [now left|].
  destruct (j2 <? j1)%nat eqn:E4; [now right|].
  destruct (Nat.leb_spec k1 k2); [now left|].
  right; apply Nat.leb_le; lia.
Qed.
End MatchOrder.

Module MatchSort := Sort MatchOrder.

(** The loop collapsing adjacent blocks; [(i1, j1, k1)] is the block
    being grown. *)
Fixpoint collapse (blocks : list Match) (i1 j1 k1 : nat)
         (non_adjacent : list Match) : list Match :=
  match blocks with
  | [] =>
      if (k1 =? 0)%nat then non_adjacent
      else non_adjacent ++ [(i1, j1, k1)]
  | (i2, j2, k2) :: blocks' =>
      if (i1 + k1 =? i2)%nat && (j1 + k1 =? j2)%nat
      then collapse blocks' i1 j1 (k1 + k2)%nat non_adjacent
      else
        collapse blocks' i2 j2 k2
                 (if (k1 =? 0)%nat then non_adjacent
                  else non_adjacent ++ [(i1, j1, k1)])
  end.

(** Iterations granted to the queue loop for inputs [a] and [b]. *)
Definition blocks_fuel (a b : list ascii) : nat :=
  (2 * Nat.min (length a) (length b) + 1)%nat.

Definition get_matching_blocks (a b : list ascii) : option (list Match) :=
  let la := length a in
  let lb := length b in
  match blocks_loop a b (blocks_fuel a b) [(0, la, 0, lb)%nat] [] with
  | None => None
  | Some matching_blocks =>
      let sorted := MatchSort.sort matching_blocks in
      let non_adjacent := collapse sorted 0 0 0 [] in
      Some (non_adjacent ++ [(la, lb, 0%nat)])
  end.

Definition _calculate_ratio (matches length : nat) : R :=
  if (length =? 0)%nat then 1
  else 2 * INR matches / INR length.

Definition ratio (a b : list ascii) : option R :=
  match get_matching_blocks a b with
  | None => None
  | Some blocks =>
      let matches := fold_right Nat.add 0%nat (map match_size blocks) in
      Some (_calculate_ratio matches (length a + length b))
  end.

(** ** [audio_similarity_detector.py]: [calculate_fingerprint_similarity] *)

Definition calculate_fingerprint_similarity (fingerprint1 fingerprint2 : string)
  : option R :=
  let similarity :=
    ratio (list_ascii_of_string fingerprint1)
          (list_ascii_of_string fingerprint2) in
  similarity.

(* ================================================================== *)
(** ** Further float operations *)



(** Division of a float by a non-zero literal. *)
Definition float_div_literal (a : pyfloat) (c : R) : pyfloat :=
  match a with
  | Num x => Num (x / c)
  | NaN => NaN
  end.



(* ================================================================== *)
(** ** [enhanced_similarity_detector.py]: the callers of the scorer *)

Module Investigation.

(** The dictionary returned by [investigate_acoustid_limitation]. *)
Record results : Type := mk {
  fingerprint1 : string;
  fingerprint2 : string;
  are_identical : bool;
  duration1 : R;
  duration2 : R
}.

End Investigation.

(** [investigate_acoustid_limitation], from the durations and decoded
    fingerprints [acoustid.fingerprint_file] returned for the two files
    on. *)
Definition investigate_acoustid_limitation
           (duration1 : R) (fingerprint1_str : string)
           (duration2 : R) (fingerprint2_str : string)
  : Investigation.results :=
  let are_identical := String.eqb fingerprint1_str fingerprint2_str in
  {| Investigation.fingerprint1 := fingerprint1_str;
     Investigation.fingerprint2 := fingerprint2_str;
     Investigation.are_identical := are_identical;
     Investigation.duration1 := duration1;
     Investigation.duration2 := duration2 |}.

Module EnhancedAnalysis.

(** What [main_enhanced_analysis] returns, together with the
    interpretation line it prints. *)
Record results : Type := mk {
  enhanced_results : Report;
  acoustid_analysis : Investigation.results;
  interpretation : string
}.

End EnhancedAnalysis.


(* ================================================================== *)
(** ** [audio_similarity_detector.py]: the two comparison methods *)

(** What [librosa] returned for one file: the number of samples, the
    sampling rate, and the flattened MFCC, spectral-centroid and
    spectral-rolloff arrays. *)
Record LibrosaAudio : Type := mkLibrosaAudio {
  samples : nat;
  sr : Z;
  mfcc : list R;
  spectral_centroid : list R;
  spectral_rolloff : list R
}.

Module Librosa.

(** The dictionary returned by [compare_audio_files_librosa]
    ([computation_time], a wall-clock measurement, is left out). *)
Record results : Type := mk {
  method : string;
  fingerprint1 : string;
  fingerprint2 : string;
  fingerprint_similarity : R;
  mfcc_similarity : pyfloat;
  centroid_similarity : pyfloat;
  rolloff_similarity : pyfloat;
  overall_similarity : pyfloat;
  duration1 : R;
  duration2 : R
}.

End Librosa.

Module Acoustid.

(** The dictionary returned by [compare_audio_files_acoustid]
    ([computation_time] is left out). *)
Record results : Type := mk {
  method : string;
  fingerprint1 : string;
  fingerprint2 : string;
  fingerprint_similarity : R;
  overall_similarity : R;
  duration1 : R;
  duration2 : R
}.

End Acoustid.

Module Comparison.

(** What [main_comparison] returns, together with the two interpretation
    lines and the consensus line it prints. *)
Record results : Type := mk {
  librosa : Librosa.results;
  acoustid : Acoustid.results;
  librosa_interpretation : string;
  acoustid_interpretation : string;
  consensus : string
}.

End Comparison.

(** [compare_audio_files_acoustid], from the durations and decoded
    fingerprints [acoustid.fingerprint_file] returned on.  [None] only if
    the sequence matcher ran out of fuel. *)
Definition compare_audio_files_acoustid
           (duration1 : R) (fingerprint1_str : string)
           (duration2 : R) (fingerprint2_str : string)
  : option Acoustid.results :=
  match calculate_fingerprint_similarity fingerprint1_str fingerprint2_str with
  | None => None
  | Some fingerprint_similarity =>
      Some {| Acoustid.method := "acoustid";
              Acoustid.fingerprint1 := fingerprint1_str;
              Acoustid.fingerprint2 := fingerprint2_str;
              Acoustid.fingerprint_similarity := fingerprint_similarity;
              Acoustid.overall_similarity := fingerprint_similarity;
              Acoustid.duration1 := duration1;
              Acoustid.duration2 := duration2 |}
  end.


Section Hashing.

(** [hashlib.md5(features.tobytes()).hexdigest()], as a function of the
    feature array. *)
Variable md5_hexdigest : list R -> string.

(** [compare_audio_files_librosa], from what [librosa] returned for the
    two files on.  [None] only if the sequence matcher ran out of
    fuel. *)
Definition compare_audio_files_librosa (audio1 audio2 : LibrosaAudio)
  : option (result Librosa.results) :=
  let features1 :=
    firstn 1000 (mfcc audio1) ++ firstn 100 (spectral_centroid audio1)
      ++ firstn 100 (spectral_rolloff audio1) in
  let features2 :=
    firstn 1000 (mfcc audio2) ++ firstn 100 (spectral_centroid audio2)
      ++ firstn 100 (spectral_rolloff audio2) in
  let fingerprint1 := md5_hexdigest features1 in
  let fingerprint2 := md5_hexdigest features2 in
  match calculate_fingerprint_similarity fingerprint1 fingerprint2 with
  | None => None
  | Some fingerprint_similarity =>
      Some (
        mfcc_similarity <-
          corrcoef (firstn 1000 (mfcc audio1)) (firstn 1000 (mfcc audio2)) ;;
        centroid_similarity <-
          corrcoef (firstn 100 (spectral_centroid audio1))
                   (firstn 100 (spectral_centroid audio2)) ;;
        rolloff_similarity <-
          corrcoef (firstn 100 (spectral_rolloff audio1))
                   (firstn 100 (spectral_rolloff audio2)) ;;
        let overall :=
          float_div_literal
            (float_add
               (float_add
                  (float_add (Num fingerprint_similarity) mfcc_similarity)
                  centroid_similarity)
               rolloff_similarity) 4 in
        duration1 <- py_div (INR (samples audio1)) (IZR (sr audio1)) ;;
        duration2 <- py_div (INR (samples audio2)) (IZR (sr audio2)) ;;
        Ok {| Librosa.method := "librosa";
              Librosa.fingerprint1 := fingerprint1;
              Librosa.fingerprint2 := fingerprint2;
              Librosa.fingerprint_similarity := fingerprint_similarity;
              Librosa.mfcc_similarity := mfcc_similarity;
              Librosa.centroid_similarity := centroid_similarity;
              Librosa.rolloff_similarity := rolloff_similarity;
              Librosa.overall_similarity := overall;
              Librosa.duration1 := duration1;
              Librosa.duration2 := duration2 |})
  end.


End Hashing.

(* ================================================================== *)
(** ** [acoustid_explorer.py]: [compare_fingerprints] *)

(** Python's true division of two non-negative integers; [None] stands
    for [ZeroDivisionError("division by zero")]. *)
Definition int_true_div (x y : nat) : option R :=
  if (y =? 0)%nat then None else Some (INR x / INR y).

(** [sum(1 for a, b in zip(fingerprint1, fingerprint2) if a == b)]. *)
Definition matching_positions (fingerprint1 fingerprint2 : list ascii)
  : nat :=
  length (filter (fun ab => Ascii.eqb (fst ab) (snd ab))
                 (combine fingerprint1 fingerprint2)).

(** The similarity expression of [compare_fingerprints]. *)
Definition positional_similarity (fingerprint1 fingerprint2 : list ascii)
  : option R :=
  int_true_div (matching_positions fingerprint1 fingerprint2)
               (Nat.max (length fingerprint1) (length fingerprint2)).

(** The result line [compare_fingerprints] prints. *)
Definition similarity_verdict (similarity : R) : string :=
  if Rlt_dec 0.9 similarity then "Result: Very similar (likely same audio)"
  else if Rlt_dec 0.7 similarity
  then "Result: Similar (possibly related audio)"
  else if Rlt_dec 0.5 similarity then "Result: Somewhat similar"
  else "Result: Different audio files".

(** What a call to [acoustid.fingerprint_file] did: it returned a duration
    and a fingerprint, or raised an exception with the given message. *)
Inductive fingerprint_call : Type :=
| Returned (duration : R) (fingerprint : list ascii)
| Raised (message : string).

Module Fingerprints.

Record file_entry : Type := mk_file {
  path : string;
  fingerprint : option (list ascii);
  duration : option R
}.

(** The dictionary returned by [compare_fingerprints]. *)
Record results : Type := mk {
  file1 : file_entry;
  file2 : file_entry;
  similarity : option R;
  errors : list string
}.

End Fingerprints.

(** [compare_fingerprints]: every exception is caught and its message
    appended to [errors]; what was stored before it stays.  The second
    file is fingerprinted only if the first call returned. *)
Definition compare_fingerprints
           (audio_path1 audio_path2 : string)
           (call1 call2 : fingerprint_call) : Fingerprints.results :=
  let empty1 := Fingerprints.mk_file audio_path1 None None in
  let empty2 := Fingerprints.mk_file audio_path2 None None in
  match call1 with
  | Raised message =>
      Fingerprints.mk empty1 empty2 None [message]
  | Returned duration1 fingerprint1 =>
      let file1 :=
        Fingerprints.mk_file audio_path1 (Some fingerprint1)
                             (Some duration1) in
      match call2 with
      | Raised message =>
          Fingerprints.mk file1 empty2 None [message]
      | Returned duration2 fingerprint2 =>
          let file2 :=
            Fingerprints.mk_file audio_path2 (Some fingerprint2)
                                 (Some duration2) in
          match positional_similarity fingerprint1 fingerprint2 with
          | None =>
              Fingerprints.mk file1 file2 None ["division by zero"%string]
          | Some similarity =>
              Fingerprints.mk file1 file2 (Some similarity) []
          end
      end
  end.

(* ================================================================== *)
(** ** Sample inputs of the comparison methods *)

(** A stand-in for the digest in examples: it tells the empty feature
    array from the others. *)
Definition sample_hexdigest (features : list R) : string :=
  if (length features =? 0)%nat
  then "d41d8cd98f00b204e9800998ecf8427e"
  else "900150983cd24fb0d6963f7d28e17f72".

(** Half a second of audio at 8 kHz whose three features vary. *)
Definition audio_varying : LibrosaAudio :=
  {| samples := 4000; sr := 8000%Z;
     mfcc := [1; 2; 3];
     spectral_centroid := [1; 2; 3];
     spectral_rolloff := [1; 2; 3] |}.

(** The same with a spectral rolloff that stays at one frequency. *)
Definition audio_steady : LibrosaAudio :=
  {| samples := 4000; sr := 8000%Z;
     mfcc := [1; 2; 3];
     spectral_centroid := [1; 2; 3];
     spectral_rolloff := [0.5; 0.5; 0.5] |}.

(* ================================================================== *)
(** ** Auxiliary definitions of the proofs *)

(** The nine entries of the [similarities] dictionary, in insertion
    order. *)
Definition similarity_table (d e c ro : R) (m ch : pyfloat) (t h p : R)
  : list (string * pyfloat) :=
  [ ("duration"%string, Num d);
    ("energy"%string, Num e);
    ("spectral_centroid"%string, Num c);
    ("spectral_rolloff"%string, Num ro);
    ("mfcc"%string, m);
    ("chroma"%string, ch);
    ("tempo"%string, Num t);
    ("harmonic_ratio"%string, Num h);
    ("percussive_ratio"%string, Num p) ].

(** The report in which every feature scores 1. *)
Definition perfect_report (c1 c2 : Characteristics) : Report :=
  {| characteristics1 := c1;
     characteristics2 := c2;
     similarities := similarity_table 1 1 1 1 (Num 1) (Num 1) 1 1 1;
     overall_similarity := Num 1 |}.

(** Two sequences without a common element. *)
Definition no_common_element (a b : list ascii) : Prop :=
  forall c, In c a -> ~ In c b.

(** The number of consecutive elements of [s] ending at position [i] that
    are not popular: the size of the longest block the row scan can find
    ending at [s[i]] on the diagonal when [s] is matched against
    itself. *)
Fixpoint diag_run (s : list ascii) (i : nat) : nat :=
  match i with
  | O => if bpopular s (elt_at s 0) then 0 else 1
  | S i' => if bpopular s (elt_at s i) then 0 else diag_run s i' + 1
  end.

(** [diag_run] at the previous position, 0 before the first. *)
Definition diag_run_pred (s : list ascii) (i : nat) : nat :=
  match i with
  | O => 0
  | S i' => diag_run s i'
  end.

(** What holds before row [i] of the scan when [s] is matched against
    itself: the best block lies on the diagonal and ends before row [i],
    the previous row's lengths are bounded by the diagonal runs and exact
    on the diagonal, and the best size covers every diagonal run seen. *)
Definition row_inv (s : list ascii) (i : nat) (j2len : list (nat * nat))
           (best : Match) : Prop :=
  let '(besti, bestj, bestsize) := best in
  besti = bestj /\
  (besti + bestsize <= i)%nat /\
  (forall j, (j2len_get_pred j2len j <= diag_run_pred s i)%nat /\
             (j2len_get_pred j2len j <= diag_run_pred s j)%nat) /\
  (forall i', (i' < i)%nat -> (diag_run s i' <= bestsize)%nat) /\
  j2len_get_pred j2len i = diag_run_pred s i.

(** A block inside [a[alo:row]] and [b[blo:bhi]]. *)
Definition block_inside (alo blo bhi row : nat) (m : Match) : Prop :=
  let '(i, j, k) := m in
  (alo <= i)%nat /\ (i + k <= row)%nat /\ (blo <= j)%nat /\ (j + k <= bhi)%nat.

(** Lengths stored for a row are bounded by the rows and columns scanned
    so far. *)
Definition lengths_bounded (blo rows : nat) (j2len : list (nat * nat))
  : Prop :=
  forall j, (j2len_get j2len j <= rows)%nat /\
            (j2len_get j2len j <= j + 1 - blo)%nat.

(** The work left in a queue: each range may yield at most
    [min(ahi - alo, bhi - blo)] blocks and one final empty search. *)
Fixpoint queue_measure (queue : list (nat * nat * nat * nat)) : nat :=
  match queue with
  | [] => 0
  | (alo, ahi, blo, bhi) :: queue' =>
      2 * Nat.min (ahi - alo) (bhi - blo) + 1 + queue_measure queue'
  end.

Definition well_formed_range (q : nat * nat * nat * nat) : Prop :=
  let '(alo, ahi, blo, bhi) := q in (alo <= ahi)%nat /\ (blo <= bhi)%nat.

(** The number of matched elements [ratio] sums over a list of blocks. *)
Definition total_size (blocks : list Match) : nat :=
  fold_right Nat.add 0%nat (map match_size blocks).

(** The most elements the ranges of a queue can still match. *)
Fixpoint queue_cap (queue : list (nat * nat * nat * nat)) : nat :=
  match queue with
  | [] => 0
  | (alo, ahi, blo, bhi) :: queue' =>
      Nat.min (ahi - alo) (bhi - blo) + queue_cap queue'
  end.

(** The elements of both sequences the ranges of a queue span. *)
Fixpoint queue_span (queue : list (nat * nat * nat * nat)) : nat :=
  match queue with
  | [] => 0
  | (alo, ahi, blo, bhi) :: queue' =>
      (ahi - alo) + (bhi - blo) + queue_span queue'
  end.

(** A block whose elements agree pairwise in [a] and [b]. *)
Definition block_matching (a b : list ascii) (m : Match) : Prop :=
  let '(i, j, k) := m in
  forall t, (t < k)%nat -> elt_at a (i + t) = elt_at b (j + t).

(** A block that lies within both sequences and matches. *)
Definition genuine_block (a b : list ascii) (m : Match) : Prop :=
  block_inside 0 0 (length b) (length a) m /\ block_matching a b m.

(** The lengths stored after scanning row [i - 1] are lengths of common
    runs ending at that row. *)
Definition row_matching (a b : list ascii) (i : nat)
           (j2len : list (nat * nat)) : Prop :=
  forall j t, (t < j2len_get j2len j)%nat ->
    (t < i)%nat /\ (t <= j)%nat /\
    elt_at a (i - 1 - t) = elt_at b (j - t).

(** A range within both sequences. *)
Definition range_within (a b : list ascii) (q : nat * nat * nat * nat)
  : Prop :=
  let '(alo, ahi, blo, bhi) := q in
  (alo <= ahi <= length a)%nat /\ (blo <= bhi <= length b)%nat.

(** A range over which the two sequences coincide. *)
Definition range_equal (a b : list ascii) (q : nat * nat * nat * nat)
  : Prop :=
  let '(alo, ahi, blo, bhi) := q in
  (ahi - alo = bhi - blo)%nat /\
  forall t, (t < ahi - alo)%nat -> elt_at a (alo + t) = elt_at b (blo + t).

(* ================================================================== *)
(** * Properties *)

(** ** Python primitives *)

Lemma py_max_Rmax (a b : R) : py_max a b = Rmax a b.
Proof.
  unfold py_max, Rmax.
  destruct (Rlt_dec a b), (Rle_dec a b); lra.
Qed.

Lemma py_max_comm (a b : R) : py_max a b = py_max b a.
Proof. rewrite !py_max_Rmax. apply Rmax_comm. Qed.

Lemma py_abs_minus_sym (a b : R) : py_abs (a - b) = py_abs (b - a).
Proof. unfold py_abs. apply Rabs_minus_sym. Qed.

Lemma py_div_ok (x y : R) : y <> 0 -> py_div x y = Ok (x / y).
Proof.
  intros Hy. unfold py_div.
  destruct (Req_dec_T y 0) as [E | _]; [contradiction | reflexivity].
Qed.

Lemma py_div_zero (x : R) : py_div x 0 = Raise ZeroDivisionError.
Proof.
  unfold py_div.
  destruct (Req_dec_T 0 0) as [_ | N]; [reflexivity | now elim N].
Qed.

Lemma float_ge_true (x c : R) : c <= x -> float_ge (Num x) c = true.
Proof.
  intros H. unfold float_ge.
  destruct (Rle_dec c x); [reflexivity | contradiction].
Qed.

Lemma float_ge_false (x c : R) : x < c -> float_ge (Num x) c = false.
Proof.
  intros H. unfold float_ge.
  destruct (Rle_dec c x); [lra | reflexivity].
Qed.

(** ** Scalar closeness *)

Lemma closeness_ok (a b : R) :
  Rmax a b <> 0 -> closeness a b = Ok (closeness_formula a b).
Proof.
  intros H. unfold closeness, closeness_formula.
  rewrite py_div_ok by (rewrite py_max_Rmax; exact H).
  cbn. now rewrite !py_max_Rmax.
Qed.

Lemma closeness_zero (a b : R) :
  Rmax a b = 0 -> closeness a b = Raise ZeroDivisionError.
Proof.
  intros H. unfold closeness.
  rewrite py_max_Rmax, H, py_div_zero. reflexivity.
Qed.

Lemma closeness_cases (a b : R) :
  closeness a b = Ok (closeness_formula a b) \/
  closeness a b = Raise ZeroDivisionError.
Proof.
  destruct (Req_dec_T (Rmax a b) 0) as [E | N].
  - right. now apply closeness_zero.
  - left. now apply closeness_ok.
Qed.

Lemma closeness_Ok_inv (a b s : R) :
  closeness a b = Ok s -> Rmax a b <> 0 /\ s = closeness_formula a b.
Proof.
  intros H. destruct (Req_dec_T (Rmax a b) 0) as [E | N].
  - rewrite (closeness_zero _ _ E) in H. discriminate.
  - rewrite (closeness_ok _ _ N) in H. injection H as <-. now split.
Qed.

Lemma closeness_comm (a b : R) : closeness a b = closeness b a.
Proof.
  unfold closeness.
  now rewrite py_abs_minus_sym, py_max_comm.
Qed.

Lemma closeness_self (a : R) : a <> 0 -> closeness a a = Ok 1.
Proof.
  intros Ha. rewrite closeness_ok.
  - unfold closeness_formula. f_equal.
    replace (a - a) with 0 by lra. rewrite Rabs_R0.
    unfold Rdiv. rewrite Rmult_0_l, Rminus_0_r.
    apply Rmax_right. lra.
  - unfold Rmax. destruct (Rle_dec a a); exact Ha.
Qed.

Lemma closeness_formula_range (a b : R) :
  0 <= a -> 0 <= b -> Rmax a b <> 0 -> 0 <= closeness_formula a b <= 1.
Proof.
  intros Ha Hb Hm. unfold closeness_formula.
  assert (Hpos : 0 < Rmax a b).
  { pose proof (Rmax_l a b). pose proof (Rmax_r a b). lra. }
  assert (Hd : 0 <= Rabs (a - b) / Rmax a b).
  { apply Rmult_le_pos; [apply Rabs_pos |].
    left. now apply Rinv_0_lt_compat. }
  split; [apply Rmax_l |].
  apply Rmax_lub; lra.
Qed.

(** ** Ratio closeness *)


Lemma ratio_closeness_self (a : R) : ratio_closeness a a = 1.
Proof.
  unfold ratio_closeness, py_abs.
  replace (a - a) with 0 by lra.
  rewrite Rabs_R0, Rminus_0_r, py_max_Rmax.
  apply Rmax_right. lra.
Qed.

Lemma ratio_closeness_range (a b : R) : 0 <= ratio_closeness a b <= 1.
Proof.
  unfold ratio_closeness, py_abs. rewrite py_max_Rmax.
  pose proof (Rabs_pos (a - b)).
  split; [apply Rmax_l | apply Rmax_lub; lra].
Qed.

(** ** Correlation *)

Lemma dot_comm (u w : list R) : dot u w = dot w u.
Proof.
  revert w. induction u as [| x u IH]; intros [| y w]; simpl; try reflexivity.
  rewrite IH. lra.
Qed.

Lemma dot_zero_l (u w : list R) :
  (forall x, In x u -> x = 0) -> dot u w = 0.
Proof.
  revert w. induction u as [| x u IH]; intros [| y w] H; simpl; try reflexivity.
  rewrite (H x) by now left.
  rewrite IH by (intros z Hz; apply H; now right). lra.
Qed.

Lemma dot_self_nonneg (u : list R) : 0 <= dot u u.
Proof.
  induction u as [| x u IH]; simpl; [lra | nra].
Qed.

Lemma dot_self_zero (u : list R) :
  dot u u = 0 -> forall x, In x u -> x = 0.
Proof.
  induction u as [| x u IH]; simpl; intros H z Hz; [contradiction |].
  pose proof (dot_self_nonneg u) as Hu.
  destruct Hz as [<- | Hz].
  - nra.
  - apply IH; [nra | exact Hz].
Qed.

Lemma Rsum_all_eq (v : list R) (c : R) :
  (forall x, In x v -> x = c) -> Rsum v = INR (length v) * c.
Proof.
  induction v as [| x v IH]; intros H.
  - simpl. lra.
  - change (Rsum (x :: v)) with (x + Rsum v).
    change (length (x :: v)) with (S (length v)).
    rewrite S_INR, IH by (intros z Hz; apply H; now right).
    rewrite (H x) by now left. lra.
Qed.

Lemma constant_average (v : list R) :
  constant v -> forall x, In x v -> x = average v.
Proof.
  intros Hc x Hx. unfold average.
  rewrite (Rsum_all_eq v x) by (intros z Hz; now apply Hc).
  destruct v as [| y v]; [contradiction |].
  assert (0 < INR (length (y :: v))) by (apply lt_0_INR; simpl; lia).
  field. lra.
Qed.

Lemma centre_constant (v : list R) :
  constant v -> forall z, In z (centre v) -> z = 0.
Proof.
  intros Hc z Hz. unfold centre in Hz.
  apply in_map_iff in Hz. destruct Hz as [x [<- Hx]].
  rewrite <- (constant_average v Hc x Hx). lra.
Qed.

Lemma centre_zero_constant (v : list R) :
  (forall z, In z (centre v) -> z = 0) -> constant v.
Proof.
  intros H.
  assert (E : forall x, In x v -> x = average v).
  { intros x Hx.
    assert (x - average v = 0); [| lra].
    apply H. unfold centre. apply in_map_iff. now exists x. }
  intros x y Hx Hy. rewrite (E x Hx), (E y Hy). reflexivity.
Qed.


Lemma cov_constant_l (u w : list R) : constant u -> cov u w = 0.
Proof.
  intros Hc. unfold cov.
  rewrite dot_zero_l by now apply centre_constant. lra.
Qed.

Lemma cov_constant_r (u w : list R) : constant w -> cov u w = 0.
Proof.
  intros Hc. unfold cov.
  rewrite dot_comm, dot_zero_l by now apply centre_constant. lra.
Qed.

Lemma short_constant (v : list R) : (length v <= 1)%nat -> constant v.
Proof.
  destruct v as [| x [| y v]]; simpl; intros H a b Ha Hb.
  - contradiction.
  - destruct Ha as [<- | []], Hb as [<- | []]. reflexivity.
  - lia.
Qed.

Lemma INR_pred_pos (n : nat) : (2 <= n)%nat -> 0 < INR n - 1.
Proof.
  intros H. apply le_INR in H. simpl in H. lra.
Qed.

Lemma cov_self_nonneg (v : list R) : (2 <= length v)%nat -> 0 <= cov v v.
Proof.
  intros H. unfold cov.
  apply Rmult_le_pos; [apply dot_self_nonneg |].
  pose proof (INR_pred_pos _ H) as Hp.
  unfold Rdiv. rewrite Rmult_1_l. left. now apply Rinv_0_lt_compat.
Qed.

Lemma cov_self_zero_constant (v : list R) :
  (2 <= length v)%nat -> cov v v = 0 -> constant v.
Proof.
  intros H E. apply centre_zero_constant. apply dot_self_zero.
  unfold cov in E. pose proof (INR_pred_pos _ H) as Hp.
  apply Rmult_integral in E. destruct E as [E | E]; [exact E |].
  exfalso. unfold Rdiv in E. rewrite Rmult_1_l in E.
  apply (Rinv_neq_0_compat (INR (length v) - 1)); lra.
Qed.

Lemma cov_self_pos (v : list R) : ~ constant v -> 0 < cov v v.
Proof.
  intros Hn.
  assert (H2 : (2 <= length v)%nat).
  { destruct (le_lt_dec (length v) 1) as [Hs | Hl]; [| lia].
    elim Hn. now apply short_constant. }
  destruct (cov_self_nonneg v H2) as [Hp | Hz]; [exact Hp |].
  elim Hn. now apply cov_self_zero_constant.
Qed.

Lemma stddev_zero_iff_constant (v : list R) :
  (2 <= length v)%nat -> (sqrt (cov v v) = 0 <-> constant v).
Proof.
  intros H2. split.
  - intros E. apply cov_self_zero_constant; [exact H2 |].
    apply sqrt_eq_0; [now apply cov_self_nonneg | exact E].
  - intros Hc. rewrite cov_constant_l by exact Hc. apply sqrt_0.
Qed.

(** Where NumPy divides by a zero standard deviation the numerator is
    zero as well, so the quotient is [0 / 0 = nan], never an infinity. *)
Lemma zero_stddev_zero_cov (x y : list R) :
  (2 <= length x)%nat -> length x = length y ->
  sqrt (cov x x) = 0 \/ sqrt (cov y y) = 0 -> cov x y = 0.
Proof.
  intros H2 E [Hx | Hy].
  - apply cov_constant_l. now apply stddev_zero_iff_constant.
  - apply cov_constant_r. apply stddev_zero_iff_constant; [lia | exact Hy].
Qed.

Lemma np_clip_range (x : R) : -1 <= np_clip x (-1) 1 <= 1.
Proof.
  unfold np_clip.
  destruct (Rlt_dec x (-1)); [lra |].
  destruct (Rlt_dec 1 x); lra.
Qed.

Lemma np_clip_id (x : R) : -1 <= x <= 1 -> np_clip x (-1) 1 = x.
Proof.
  intros H. unfold np_clip.
  destruct (Rlt_dec x (-1)); [lra |].
  destruct (Rlt_dec 1 x); [lra | reflexivity].
Qed.

Lemma corrcoef_length_mismatch (x y : list R) :
  length x <> length y -> corrcoef x y = Raise ValueError.
Proof.
  intros H. unfold corrcoef.
  apply Nat.eqb_neq in H. now rewrite H.
Qed.

Lemma corrcoef_same_length (x y : list R) :
  length x = length y -> exists v, corrcoef x y = Ok v.
Proof.
  intros H. unfold corrcoef.
  apply Nat.eqb_eq in H. rewrite H. simpl.
  destruct (length x <=? 1)%nat; [now eexists |].
  destruct (Req_dec_T _ 0); [now eexists |].
  destruct (Req_dec_T _ 0); now eexists.
Qed.

Lemma corrcoef_Raise_inv (x y : list R) (e : exn) :
  corrcoef x y = Raise e -> e = ValueError /\ length x <> length y.
Proof.
  intros H. destruct (Nat.eq_dec (length x) (length y)) as [E | N].
  - destruct (corrcoef_same_length x y E) as [v Hv]. congruence.
  - rewrite (corrcoef_length_mismatch x y N) in H.
    injection H as <-. now split.
Qed.


Lemma corrcoef_range (x y : list R) (r : R) :
  corrcoef x y = Ok (Num r) -> -1 <= r <= 1.
Proof.
  unfold corrcoef.
  destruct (negb _); [discriminate |].
  destruct (length x <=? 1)%nat; [discriminate |].
  destruct (Req_dec_T _ 0); [discriminate |].
  destruct (Req_dec_T _ 0); [discriminate |].
  intros H. injection H as <-. apply np_clip_range.
Qed.


Lemma corrcoef_self (v : list R) :
  ~ constant v -> corrcoef v v = Ok (Num 1).
Proof.
  intros Hn. unfold corrcoef. rewrite Nat.eqb_refl. simpl.
  destruct (length v <=? 1)%nat eqn:Hs.
  { apply Nat.leb_le in Hs. elim Hn. now apply short_constant. }
  pose proof (cov_self_pos v Hn) as Hp.
  pose proof (sqrt_lt_R0 _ Hp) as Hs0.
  destruct (Req_dec_T (sqrt (cov v v)) 0) as [Hz | _]; [lra |].
  do 2 f_equal.
  replace (cov v v / sqrt (cov v v) / sqrt (cov v v)) with 1.
  - apply np_clip_id. lra.
  - rewrite <- (sqrt_sqrt (cov v v)) at 1 by lra. field. lra.
Qed.

(** ** The aggregate *)

Lemma np_mean_nine (d e c ro m ch t h p : R) :
  np_mean [Num d; Num e; Num c; Num ro; Num m; Num ch; Num t; Num h; Num p]
  = Num ((d + e + c + ro + m + ch + t + h + p) / 9).
Proof.
  unfold np_mean. cbn [fold_left float_add length].
  f_equal. replace (INR 9) with 9 by (simpl; lra). f_equal. lra.
Qed.



(** ** The scorer as a whole *)

(** A report is produced exactly when the five divisions and the two
    correlations succeed, and it is then built from their values. *)
Lemma esd_Ok_intro (A B : Characteristics) (d e c ro t : R) (m ch : pyfloat) :
  closeness (duration A) (duration B) = Ok d ->
  closeness (rms_energy A) (rms_energy B) = Ok e ->
  closeness (spectral_centroid_mean A) (spectral_centroid_mean B) = Ok c ->
  closeness (spectral_rolloff_mean A) (spectral_rolloff_mean B) = Ok ro ->
  corrcoef (mfcc_mean A) (mfcc_mean B) = Ok m ->
  corrcoef (chroma_mean A) (chroma_mean B) = Ok ch ->
  closeness (tempo A) (tempo B) = Ok t ->
  let sims :=
    similarity_table d e c ro m ch t
      (ratio_closeness (harmonic_ratio A) (harmonic_ratio B))
      (ratio_closeness (percussive_ratio A) (percussive_ratio B)) in
  enhanced_similarity_detection A B =
  Ok {| characteristics1 := A; characteristics2 := B;
        similarities := sims;
        overall_similarity := np_mean (map snd sims) |}.
Proof.
  intros Hd He Hc Hro Hm Hch Ht. unfold enhanced_similarity_detection.
  rewrite Hd, He, Hc, Hro, Hm, Hch, Ht. reflexivity.
Qed.

Lemma esd_Ok_inv (A B : Characteristics) (r : Report) :
  enhanced_similarity_detection A B = Ok r ->
  exists d e c ro m ch t,
    closeness (duration A) (duration B) = Ok d /\
    closeness (rms_energy A) (rms_energy B) = Ok e /\
    closeness (spectral_centroid_mean A) (spectral_centroid_mean B) = Ok c /\
    closeness (spectral_rolloff_mean A) (spectral_rolloff_mean B) = Ok ro /\
    corrcoef (mfcc_mean A) (mfcc_mean B) = Ok m /\
    corrcoef (chroma_mean A) (chroma_mean B) = Ok ch /\
    closeness (tempo A) (tempo B) = Ok t /\
    let sims :=
      similarity_table d e c ro m ch t
        (ratio_closeness (harmonic_ratio A) (harmonic_ratio B))
        (ratio_closeness (percussive_ratio A) (percussive_ratio B)) in
    r = {| characteristics1 := A; characteristics2 := B;
           similarities := sims;
           overall_similarity := np_mean (map snd sims) |}.
Proof.
  unfold enhanced_similarity_detection.
  destruct (closeness (duration A) (duration B)) as [d | ?];
    [| discriminate].
  destruct (closeness (rms_energy A) (rms_energy B)) as [e | ?];
    [| discriminate].
  destruct (closeness (spectral_centroid_mean A) _) as [c | ?];
    [| discriminate].
  destruct (closeness (spectral_rolloff_mean A) _) as [ro | ?];
    [| discriminate].
  destruct (corrcoef (mfcc_mean A) _) as [m | ?]; [| discriminate].
  destruct (corrcoef (chroma_mean A) _) as [ch | ?]; [| discriminate].
  destruct (closeness (tempo A) _) as [t | ?]; [| discriminate].
  cbn [bind]. intros H. injection H as <-.
  exists d, e, c, ro, m, ch, t. repeat split; reflexivity.
Qed.


Lemma esd_self (A : Characteristics) :
  duration A <> 0 -> rms_energy A <> 0 ->
  spectral_centroid_mean A <> 0 -> spectral_rolloff_mean A <> 0 ->
  tempo A <> 0 ->
  ~ constant (mfcc_mean A) -> ~ constant (chroma_mean A) ->
  enhanced_similarity_detection A A = Ok (perfect_report A A).
Proof.
  intros Hd He Hc Hro Ht Hm Hch.
  rewrite (esd_Ok_intro A A 1 1 1 1 1 (Num 1) (Num 1));
    try (now apply closeness_self); try (now apply corrcoef_self).
  cbv zeta. rewrite !ratio_closeness_self.
  unfold perfect_report, similarity_table. cbn [map snd].
  rewrite np_mean_nine. do 3 f_equal. lra.
Qed.

Lemma not_constant_123 : ~ constant [1; 2; 3].
Proof.
  intros H. specialize (H 1 2). simpl in H.
  assert (1 = 2) by (apply H; auto). lra.
Qed.

Lemma not_constant_01 : ~ constant [0; 1].
Proof.
  intros H. specialize (H 0 1). simpl in H.
  assert (0 = 1) by (apply H; auto). lra.
Qed.

Lemma esd_clipA :
  enhanced_similarity_detection clipA clipA = Ok (perfect_report clipA clipA).
Proof.
  apply esd_self; simpl; try lra.
  - exact not_constant_123.
  - exact not_constant_01.
Qed.

Lemma Rmax_pos_neq0 (a b : R) : 0 < a \/ 0 < b -> Rmax a b <> 0.
Proof.
  intros H. pose proof (Rmax_l a b). pose proof (Rmax_r a b). lra.
Qed.


Lemma cov_123_321 : cov [1; 2; 3] [3; 2; 1] = -1.
Proof. unfold cov, centre, average, Rsum. simpl. field. Qed.

Lemma cov_123_123 : cov [1; 2; 3] [1; 2; 3] = 1.
Proof. unfold cov, centre, average, Rsum. simpl. field. Qed.

Lemma cov_321_321 : cov [3; 2; 1] [3; 2; 1] = 1.
Proof. unfold cov, centre, average, Rsum. simpl. field. Qed.

Lemma corrcoef_123_321 : corrcoef [1; 2; 3] [3; 2; 1] = Ok (Num (-1)).
Proof.
  unfold corrcoef. cbn [length Nat.eqb Nat.leb negb].
  rewrite cov_123_321, cov_123_123, cov_321_321, sqrt_1.
  destruct (Req_dec_T 1 0) as [E | _]; [lra |].
  do 2 f_equal. rewrite np_clip_id; lra.
Qed.

Lemma cov_01_10 : cov [0; 1] [1; 0] = - (1 / 2).
Proof. unfold cov, centre, average, Rsum. simpl. field. Qed.

Lemma cov_01_01 : cov [0; 1] [0; 1] = 1 / 2.
Proof. unfold cov, centre, average, Rsum. simpl. field. Qed.

Lemma cov_10_10 : cov [1; 0] [1; 0] = 1 / 2.
Proof. unfold cov, centre, average, Rsum. simpl. field. Qed.

Lemma corrcoef_01_10 : corrcoef [0; 1] [1; 0] = Ok (Num (-1)).
Proof.
  unfold corrcoef. cbn [length Nat.eqb Nat.leb negb].
  rewrite cov_01_10, cov_01_01, cov_10_10.
  assert (Hs : 0 < sqrt (1 / 2)) by (apply sqrt_lt_R0; lra).
  destruct (Req_dec_T (sqrt (1 / 2)) 0) as [E | _]; [lra |].
  do 2 f_equal.
  replace (- (1 / 2) / sqrt (1 / 2) / sqrt (1 / 2)) with (-1).
  - apply np_clip_id. lra.
  - rewrite <- (sqrt_sqrt (1 / 2)) at 1 by lra. field. lra.
Qed.

(** ** The interpretation tables *)

Lemma table_4_1_total (x : R) : exists l, table_4_1 x l.
Proof.
  destruct (Rle_dec 0.95 x); [now exists IDENTICAL |].
  destruct (Rle_dec 0.80 x); [exists VERY_SIMILAR; simpl; lra |].
  destruct (Rle_dec 0.60 x); [exists SIMILAR; simpl; lra |].
  destruct (Rle_dec 0.40 x); [exists SOMEWHAT_SIMILAR; simpl; lra |].
  destruct (Rle_dec 0.20 x); [exists SLIGHTLY_SIMILAR; simpl; lra |].
  exists DIFFERENT; simpl; lra.
Qed.

Lemma table_4_1_monotone (x y : R) (lx ly : Label) :
  table_4_1 x lx -> table_4_1 y ly -> x <= y ->
  (label_rank lx <= label_rank ly)%nat.
Proof.
  intros Hx Hy Hxy.
  destruct lx, ly; simpl in *; try lia; exfalso; lra.
Qed.

Ltac decide_float_ge :=
  repeat first
    [ rewrite float_ge_true by lra
    | rewrite float_ge_false by lra ].

Lemma interpret_similarity_table (x : R) (l : Label) :
  table_4_1 x l ->
  label_of_message (interpret_similarity (Num x)) = Some l.
Proof.
  intros H. unfold interpret_similarity.
  destruct l; simpl in H; decide_float_ge; reflexivity.
Qed.

Lemma main_enhanced_interpretation_table (x : R) (l : Label) :
  table_4_1 x l ->
  label_of_message (main_enhanced_interpretation (Num x)) =
  Some (match l with IDENTICAL => VERY_SIMILAR | _ => l end).
Proof.
  intros H. unfold main_enhanced_interpretation.
  destruct l; simpl in H; decide_float_ge; reflexivity.
Qed.

(* ================================================================== *)
(** * Claims about the similarity scorer *)

Open Scope string_scope.

(** C1, as stated, fails where [max(a, b) = 0]: for two clips whose
    spectral centroid is zero the division raises [ZeroDivisionError], so
    no report with a centroid similarity of 1 is produced. *)
Lemma C1_zero_max_raises :
  Rmax (spectral_centroid_mean dc1) (spectral_centroid_mean dc2) = 0%R /\
  enhanced_similarity_detection dc1 dc2 = Raise ZeroDivisionError /\
  ~ (exists r, enhanced_similarity_detection dc1 dc2 = Ok r /\
               dict_get "spectral_centroid" (similarities r) = Some (Num 1)).
Proof.
  assert (E : enhanced_similarity_detection dc1 dc2 = Raise ZeroDivisionError).
  { unfold enhanced_similarity_detection.
    rewrite (closeness_ok (duration dc1))
      by (apply Rmax_pos_neq0; simpl; lra).
    rewrite (closeness_ok (rms_energy dc1))
      by (apply Rmax_pos_neq0; simpl; lra).
    cbn [bind].
    rewrite (closeness_zero (spectral_centroid_mean dc1))
      by (simpl; apply Rmax_left; lra).
    reflexivity. }
  split; [simpl; apply Rmax_left; lra |].
  split; [exact E |].
  intros [r [Hr _]]. rewrite E in Hr. discriminate.
Qed.

(** C1 (amended).  Whenever a report is produced, the duration, energy,
    spectral centroid, spectral rolloff and tempo similarities are
    [max(0, 1 - |a - b| / max(a, b))]; when [max(a, b) = 0] for one of
    these features the comparison raises an exception instead of scoring
    1, the division itself raising [ZeroDivisionError]. *)
Theorem C1_scalar_closeness (A B : Characteristics) :
  (forall r, enhanced_similarity_detection A B = Ok r ->
     dict_get "duration" (similarities r) =
       Some (Num (closeness_formula (duration A) (duration B))) /\
     dict_get "energy" (similarities r) =
       Some (Num (closeness_formula (rms_energy A) (rms_energy B))) /\
     dict_get "spectral_centroid" (similarities r) =
       Some (Num (closeness_formula (spectral_centroid_mean A)
                                    (spectral_centroid_mean B))) /\
     dict_get "spectral_rolloff" (similarities r) =
       Some (Num (closeness_formula (spectral_rolloff_mean A)
                                    (spectral_rolloff_mean B))) /\
     dict_get "tempo" (similarities r) =
       Some (Num (closeness_formula (tempo A) (tempo B)))) /\
  (Rmax (duration A) (duration B) = 0%R \/
   Rmax (rms_energy A) (rms_energy B) = 0%R \/
   Rmax (spectral_centroid_mean A) (spectral_centroid_mean B) = 0%R \/
   Rmax (spectral_rolloff_mean A) (spectral_rolloff_mean B) = 0%R \/
   Rmax (tempo A) (tempo B) = 0%R ->
   exists e, enhanced_similarity_detection A B = Raise e) /\
  (forall a b, Rmax a b = 0%R -> closeness a b = Raise ZeroDivisionError).
Proof.
  split; [| split].
  - intros r Hr.
    destruct (esd_Ok_inv A B r Hr)
      as (d & e & c & ro & m & ch & t & Hd & He & Hc & Hro & _ & _ & Ht & ->).
    apply closeness_Ok_inv in Hd, He, Hc, Hro, Ht.
    destruct Hd as [_ ->], He as [_ ->], Hc as [_ ->], Hro as [_ ->],
      Ht as [_ ->].
    repeat split; reflexivity.
  - intros Hz.
    destruct (enhanced_similarity_detection A B) as [r | e] eqn:Hr;
      [| now exists e].
    exfalso.
    destruct (esd_Ok_inv A B r Hr)
      as (d & e & c & ro & m & ch & t & Hd & He & Hc & Hro & _ & _ & Ht & _).
    apply closeness_Ok_inv in Hd, He, Hc, Hro, Ht.
    tauto.
  - exact closeness_zero.
Qed.

Lemma C1_scalar_closeness_witness :
  dict_get "tempo" (similarities (perfect_report clipA clipA)) =
  Some (Num (closeness_formula (tempo clipA) (tempo clipA))).
Proof.
  apply (proj1 (C1_scalar_closeness clipA clipA)
               (perfect_report clipA clipA) esd_clipA).
Defined.

(** C2.  The aggregate of a report is [np.mean] of the values stored in
    its [similarities] dictionary, which holds exactly the nine features
    in their fixed order; over real values that is their sum divided by
    nine. *)
Theorem C2_aggregate_is_mean (A B : Characteristics) (r : Report) :
  enhanced_similarity_detection A B = Ok r ->
  map fst (similarities r) =
    ["duration"; "energy"; "spectral_centroid"; "spectral_rolloff"; "mfcc";
     "chroma"; "tempo"; "harmonic_ratio"; "percussive_ratio"] /\
  overall_similarity r = np_mean (map snd (similarities r)) /\
  (forall d e c ro m ch t h p,
     map snd (similarities r) =
       [Num d; Num e; Num c; Num ro; Num m; Num ch; Num t; Num h; Num p] ->
     overall_similarity r =
       Num ((d + e + c + ro + m + ch + t + h + p) / 9)).
Proof.
  intros Hr.
  destruct (esd_Ok_inv A B r Hr)
    as (d & e & c & ro & m & ch & t & _ & _ & _ & _ & _ & _ & _ & ->).
  cbn [similarities overall_similarity].
  split; [reflexivity |]. split; [reflexivity |].
  intros d' e' c' ro' m' ch' t' h' p' E. rewrite E. apply np_mean_nine.
Qed.

Lemma C2_aggregate_is_mean_witness :
  overall_similarity (perfect_report clipA clipA) =
  np_mean (map snd (similarities (perfect_report clipA clipA))).
Proof.
  apply (C2_aggregate_is_mean clipA clipA (perfect_report clipA clipA)
                              esd_clipA).
Defined.





(** C5, as stated, fails for the correlation-based features: two valid
    summaries with reversed cepstral and chroma profiles score -1 on
    both, outside [[0, 1]]. *)
Lemma C5_negative_correlation :
  valid_summary clipA /\ valid_summary clipB /\
  exists r,
    enhanced_similarity_detection clipA clipB = Ok r /\
    dict_get "mfcc" (similarities r) = Some (Num (-1)) /\
    dict_get "chroma" (similarities r) = Some (Num (-1)) /\
    ~ within 0 1 (Num (-1)).
Proof.
  split; [unfold valid_summary; simpl; repeat split; try lra; lia |].
  split; [unfold valid_summary; simpl; repeat split; try lra; lia |].
  eexists. split.
  - apply (esd_Ok_intro clipA clipB 1 1 1 1 1 (Num (-1)) (Num (-1)));
      first [ apply closeness_self; simpl; lra
            | exact corrcoef_123_321
            | exact corrcoef_01_10 ].
  - cbv zeta. cbn [similarities].
    split; [reflexivity |]. split; [reflexivity |].
    simpl. lra.
Qed.

(** C5 (amended).  For valid summaries, the duration, energy, spectral
    centroid, spectral rolloff, tempo, harmonic-ratio and percussive-ratio
    similarities of a report lie in [[0, 1]]; the mfcc and chroma
    similarities are correlations passed through unclamped at zero: each
    is [nan] or lies in [[-1, 1]]. *)
Theorem C5_value_ranges (A B : Characteristics) (r : Report) :
  valid_summary A -> valid_summary B ->
  enhanced_similarity_detection A B = Ok r ->
  forall k v, In (k, v) (similarities r) ->
    if (String.eqb k "mfcc" || String.eqb k "chroma")%bool
    then v = NaN \/ within (-1) 1 v
    else within 0 1 v.
Proof.
  intros (HdA & _ & HeA & _ & HcA & HroA & _ & HtA & _)
         (HdB & _ & HeB & _ & HcB & HroB & _ & HtB & _) Hr.
  destruct (esd_Ok_inv A B r Hr)
    as (d & e & c & ro & m & ch & t & Hd & He & Hc & Hro & Hm & Hch & Ht & ->).
  apply closeness_Ok_inv in Hd, He, Hc, Hro, Ht.
  destruct Hd as [Nd ->], He as [Ne ->], Hc as [Nc ->], Hro as [Nro ->],
    Ht as [Nt ->].
  intros k v Hin. cbn [similarities similarity_table] in Hin.
  simpl in Hin.
  destruct Hin as [Hin | [Hin | [Hin | [Hin | [Hin | [Hin | [Hin | [Hin |
                  [Hin | []]]]]]]]]]; inversion Hin; subst k v; simpl.
  - apply closeness_formula_range; lra || assumption.
  - apply closeness_formula_range; lra || assumption.
  - apply closeness_formula_range; lra || assumption.
  - apply closeness_formula_range; lra || assumption.
  - destruct m as [x |]; [right | now left].
    simpl. now apply (corrcoef_range _ _ _ Hm).
  - destruct ch as [x |]; [right | now left].
    simpl. now apply (corrcoef_range _ _ _ Hch).
  - apply closeness_formula_range; lra || assumption.
  - apply ratio_closeness_range.
  - apply ratio_closeness_range.
Qed.

Lemma C5_value_ranges_witness :
  In ("tempo", Num 1) (similarities (perfect_report clipA clipA)) /\
  within 0 1 (Num 1).
Proof.
  assert (Hin : In ("tempo", Num 1)
                   (similarities (perfect_report clipA clipA)))
    by (simpl; tauto).
  split; [exact Hin |].
  apply (C5_value_ranges clipA clipA (perfect_report clipA clipA)
           ltac:(unfold valid_summary; simpl; repeat split; try lra; lia)
           ltac:(unfold valid_summary; simpl; repeat split; try lra; lia)
           esd_clipA "tempo" (Num 1) Hin).
Defined.







(** C9, as stated, fails at the call site in [main_enhanced_analysis]:
    its table has no 0.95 tier, so an aggregate of 1.0, which section 4.1
    places in IDENTICAL, is labelled VERY SIMILAR there. *)
Lemma C9_enhanced_table_has_no_identical_tier :
  table_4_1 1 IDENTICAL /\
  label_of_message (main_enhanced_interpretation (Num 1)) =
    Some VERY_SIMILAR /\
  label_of_message (main_enhanced_interpretation (Num 1)) <>
    label_of_message (interpret_similarity (Num 1)).
Proof.
  assert (H : table_4_1 1 IDENTICAL) by (simpl; lra).
  rewrite (main_enhanced_interpretation_table 1 IDENTICAL H),
    (interpret_similarity_table 1 IDENTICAL H).
  repeat split; [exact H | discriminate].
Qed.

(** C9 (amended).  [interpret_similarity] labels every real score by the
    table of section 4.1.  [main_enhanced_analysis] uses a different
    table: it agrees with section 4.1 below 0.95 and labels scores of
    0.95 and above VERY_SIMILAR. *)
Theorem C9_interpretation_tables (x : R) (l : Label) :
  table_4_1 x l ->
  label_of_message (interpret_similarity (Num x)) = Some l /\
  label_of_message (main_enhanced_interpretation (Num x)) =
    Some (match l with IDENTICAL => VERY_SIMILAR | _ => l end).
Proof.
  intros H. split.
  - now apply interpret_similarity_table.
  - now apply main_enhanced_interpretation_table.
Qed.

Lemma C9_interpretation_tables_witness :
  label_of_message (interpret_similarity (Num 0.5)) =
    Some SOMEWHAT_SIMILAR /\
  label_of_message (main_enhanced_interpretation (Num 0.5)) =
    Some SOMEWHAT_SIMILAR.
Proof.
  apply (C9_interpretation_tables 0.5 SOMEWHAT_SIMILAR).
  simpl. lra.
Defined.

(** C10.  [interpret_similarity] assigns a tier to every real score and is
    monotone: for [x <= y] the tier of [y] is never below the tier of [x].
    No clamping is needed: every score of at least 0.95 is IDENTICAL and
    every score below 0.2 is DIFFERENT. *)
Theorem C10_interpret_similarity_monotone (x y : R) :
  (x <= y)%R ->
  exists lx ly,
    label_of_message (interpret_similarity (Num x)) = Some lx /\
    label_of_message (interpret_similarity (Num y)) = Some ly /\
    (label_rank lx <= label_rank ly)%nat /\
    ((0.95 <= y)%R -> ly = IDENTICAL) /\
    ((x < 0.2)%R -> lx = DIFFERENT).
Proof.
  intros Hxy.
  destruct (table_4_1_total x) as [lx Hx].
  destruct (table_4_1_total y) as [ly Hy].
  exists lx, ly.
  split; [now apply interpret_similarity_table |].
  split; [now apply interpret_similarity_table |].
  split; [now apply (table_4_1_monotone x y) |].
  split.
  - intros H. destruct ly; simpl in Hy; try reflexivity; exfalso; lra.
  - intros H. destruct lx; simpl in Hx; try reflexivity; exfalso; lra.
Qed.

Lemma C10_interpret_similarity_monotone_witness :
  exists lx ly,
    label_of_message (interpret_similarity (Num (-3))) = Some lx /\
    label_of_message (interpret_similarity (Num 7)) = Some ly /\
    (label_rank lx <= label_rank ly)%nat /\
    ((0.95 <= 7)%R -> ly = IDENTICAL) /\
    ((-3 < 0.2)%R -> lx = DIFFERENT).
Proof.
  apply (C10_interpret_similarity_monotone (-3) 7). lra.
Defined.

(* ================================================================== *)
(** * Claims about fingerprint string similarity *)

Close Scope string_scope.

(** ** Sequence matching: sequences without a common element *)

Lemma elt_at_In (s : list ascii) (i : nat) :
  (i < length s)%nat -> In (elt_at s i) s.
Proof. intros H. unfold elt_at. now apply nth_In. Qed.

Lemma indices_from_notin (off : nat) (elt : ascii) (s : list ascii) :
  ~ In elt s -> indices_from off elt s = [].
Proof.
  revert off. induction s as [| c s IH]; intros off H; simpl; [reflexivity |].
  destruct (Ascii.eqb_spec c elt) as [E | N].
  - elim H. now left.
  - apply IH. intros Hin. apply H. now right.
Qed.

Lemma b2j_get_notin (b : list ascii) (elt : ascii) :
  ~ In elt b -> b2j_get b elt = [].
Proof.
  intros H. unfold b2j_get.
  destruct (bpopular b elt); [reflexivity | now apply indices_from_notin].
Qed.

Lemma scan_rows_no_match (a b : list ascii) (blo bhi : nat)
      (rows : list nat) (j2len : list (nat * nat)) (best : Match) :
  (forall i, In i rows -> b2j_get b (elt_at a i) = []) ->
  scan_rows a b blo bhi rows j2len best = best.
Proof.
  revert j2len. induction rows as [| i rows IH]; intros j2len H; simpl.
  - reflexivity.
  - rewrite (H i) by now left. simpl.
    apply IH. intros i' Hi'. apply H. now right.
Qed.

Lemma extend_right_no_common (a b : list ascii) (junk : bool)
      (steps ahi bhi besti bestj bestsize : nat) :
  no_common_element a b ->
  (ahi <= length a)%nat -> (bhi <= length b)%nat ->
  extend_right a b junk steps ahi bhi besti bestj bestsize =
  (besti, bestj, bestsize).
Proof.
  intros Hd Ha Hb. destruct steps as [| steps]; simpl; [reflexivity |].
  destruct (besti + bestsize <? ahi)%nat eqn:E1; simpl; [| reflexivity].
  destruct (bestj + bestsize <? bhi)%nat eqn:E2; simpl; [| reflexivity].
  apply Nat.ltb_lt in E1, E2.
  assert (N : Ascii.eqb (elt_at a (besti + bestsize))
                        (elt_at b (bestj + bestsize)) = false).
  { apply Ascii.eqb_neq. intros E.
    apply (Hd (elt_at a (besti + bestsize))).
    - apply elt_at_In. lia.
    - rewrite E. apply elt_at_In. lia. }
  rewrite N, andb_false_r. reflexivity.
Qed.

Lemma find_longest_match_no_common (a b : list ascii) :
  no_common_element a b ->
  find_longest_match a b 0 (length a) 0 (length b) = (0, 0, 0)%nat.
Proof.
  intros Hd. unfold find_longest_match.
  rewrite scan_rows_no_match.
  - unfold extend. cbn [extend_left].
    rewrite !extend_right_no_common by (auto; lia).
    cbn [extend_left].
    now rewrite extend_right_no_common by (auto; lia).
  - intros i Hi. apply in_seq in Hi.
    apply b2j_get_notin. apply Hd. apply elt_at_In. lia.
Qed.

Lemma blocks_fuel_pos (a b : list ascii) :
  exists fuel, blocks_fuel a b = S fuel.
Proof.
  unfold blocks_fuel. rewrite Nat.add_1_r. now eexists.
Qed.

Lemma get_matching_blocks_no_common (a b : list ascii) :
  no_common_element a b ->
  get_matching_blocks a b = Some [(length a, length b, 0%nat)].
Proof.
  intros Hd. unfold get_matching_blocks.
  destruct (blocks_fuel_pos a b) as [fuel ->].
  cbn [blocks_loop]. rewrite (find_longest_match_no_common a b Hd).
  cbn [Nat.eqb]. destruct fuel; reflexivity.
Qed.

Lemma ratio_no_common (a b : list ascii) :
  no_common_element a b ->
  ratio a b =
  Some (if (length a + length b =? 0)%nat then 1%R else 0%R).
Proof.
  intros Hd. unfold ratio.
  rewrite (get_matching_blocks_no_common a b Hd).
  cbn [map match_size snd fold_right Nat.add].
  unfold _calculate_ratio.
  destruct (length a + length b =? 0)%nat; [reflexivity |].
  f_equal. simpl. unfold Rdiv. now rewrite Rmult_0_r, Rmult_0_l.
Qed.

(** ** Sequence matching: a sequence against itself *)

Lemma indices_from_In (off : nat) (c : ascii) (t : list ascii) (j : nat) :
  In j (indices_from off c t) ->
  (off <= j < off + length t)%nat /\ nth (j - off) t zero = c.
Proof.
  revert off. induction t as [| x t IH]; intros off H; simpl in H.
  - contradiction.
  - destruct (Ascii.eqb_spec x c) as [E | N].
    + destruct H as [<- | H].
      * split; [simpl; lia |]. now rewrite Nat.sub_diag.
      * destruct (IH (S off) H) as [Hr Hn].
        split; [simpl; lia |].
        replace (j - off)%nat with (S (j - S off)) by lia. exact Hn.
    + destruct (IH (S off) H) as [Hr Hn].
      split; [simpl; lia |].
      replace (j - off)%nat with (S (j - S off)) by lia. exact Hn.
Qed.

Lemma indices_from_app (off : nat) (c : ascii) (t1 t2 : list ascii) :
  indices_from off c (t1 ++ t2) =
  indices_from off c t1 ++ indices_from (off + length t1) c t2.
Proof.
  revert off. induction t1 as [| x t1 IH]; intros off; simpl.
  - now rewrite Nat.add_0_r.
  - rewrite IH. replace (S off + length t1)%nat with (off + S (length t1))%nat
      by lia.
    destruct (Ascii.eqb x c); reflexivity.
Qed.

Lemma indices_split (s : list ascii) (i : nat) :
  (i < length s)%nat ->
  exists l1 l3,
    indices_from 0 (elt_at s i) s = l1 ++ i :: l3 /\
    (forall j, In j l1 -> (j < i)%nat /\ elt_at s j = elt_at s i) /\
    (forall j, In j l3 ->
       (i < j < length s)%nat /\ elt_at s j = elt_at s i).
Proof.
  intros Hi.
  destruct (nth_split s zero Hi) as (s1 & s3 & Hs & Hlen).
  fold (elt_at s i) in Hs. set (c := elt_at s i) in *.
  exists (indices_from 0 c s1), (indices_from (S i) c s3).
  split; [| split].
  - rewrite Hs at 1. rewrite indices_from_app. simpl.
    rewrite Ascii.eqb_refl, Hlen. reflexivity.
  - intros j Hj. apply indices_from_In in Hj. destruct Hj as [Hr Hn].
    split; [lia |].
    unfold elt_at. rewrite Hs, app_nth1 by lia.
    now rewrite Nat.sub_0_r in Hn.
  - intros j Hj. apply indices_from_In in Hj. destruct Hj as [Hr Hn].
    assert (Hl : length s = (i + S (length s3))%nat).
    { rewrite Hs at 1. rewrite length_app. simpl. lia. }
    split; [lia |].
    unfold elt_at. rewrite Hs, app_nth2 by lia. rewrite Hlen.
    replace (j - i)%nat with (S (j - S i)) by lia. exact Hn.
Qed.

Lemma scan_row_app (blo bhi i : nat) (j2len : list (nat * nat))
      (l1 l2 : list nat) (newj2len : list (nat * nat)) (best : Match) :
  (forall j, In j l1 -> (j < bhi)%nat) ->
  scan_row blo bhi i j2len (l1 ++ l2) newj2len best =
  let '(newj2len', best') := scan_row blo bhi i j2len l1 newj2len best in
  scan_row blo bhi i j2len l2 newj2len' best'.
Proof.
  revert newj2len best.
  induction l1 as [| j l1 IH]; intros newj2len best H.
  - reflexivity.
  - cbn [app scan_row].
    assert (Hj : (bhi <=? j)%nat = false).
    { apply Nat.leb_gt. apply H. now left. }
    rewrite Hj.
    destruct (j <? blo)%nat; apply IH; intros j' Hj'; apply H; now right.
Qed.

Lemma diag_run_unpopular (s : list ascii) (j : nat) :
  bpopular s (elt_at s j) = false ->
  diag_run s j = (diag_run_pred s j + 1)%nat.
Proof.
  intros H. destruct j as [| j]; simpl; rewrite H; reflexivity.
Qed.

Lemma diag_run_popular (s : list ascii) (j : nat) :
  bpopular s (elt_at s j) = true -> diag_run s j = 0%nat.
Proof.
  intros H. destruct j as [| j]; simpl; rewrite H; reflexivity.
Qed.

Lemma diag_run_le (s : list ascii) (i : nat) : (diag_run s i <= i + 1)%nat.
Proof.
  induction i as [| i IH]; simpl.
  - destruct (bpopular s (elt_at s 0)); lia.
  - destruct (bpopular s (elt_at s (S i))); lia.
Qed.

(** Cells off the diagonal never improve on the best block. *)
Lemma scan_row_keep (s : list ascii) (i : nat) (j2len : list (nat * nat))
      (best : Match) (l : list nat) (newj2len : list (nat * nat)) :
  (forall j, (j2len_get_pred j2len j <= diag_run_pred s i)%nat /\
             (j2len_get_pred j2len j <= diag_run_pred s j)%nat) ->
  bpopular s (elt_at s i) = false ->
  (forall j, In j l ->
     (j < length s)%nat /\ j <> i /\ elt_at s j = elt_at s i /\
     ((diag_run s j <= match_size best)%nat \/
      (diag_run s i <= match_size best)%nat)) ->
  (forall j, (j2len_get newj2len j <= diag_run s i)%nat /\
             (j2len_get newj2len j <= diag_run s j)%nat) ->
  exists newj2len',
    scan_row 0 (length s) i j2len l newj2len best = (newj2len', best) /\
    (forall j, (j2len_get newj2len' j <= diag_run s i)%nat /\
               (j2len_get newj2len' j <= diag_run s j)%nat) /\
    j2len_get newj2len' i = j2len_get newj2len i.
Proof.
  intros Hprev Hpop. revert newj2len.
  induction l as [| j l IH]; intros newj2len Hl Hnew.
  - exists newj2len. split; [reflexivity |]. split; [exact Hnew | reflexivity].
  - destruct (Hl j (or_introl eq_refl)) as (Hjn & Hji & Hje & Hbest).
    cbn [scan_row]. change (j <? 0)%nat with false. cbv iota.
    assert (Hb : (length s <=? j)%nat = false) by now apply Nat.leb_gt.
    rewrite Hb.
    destruct (Hprev j) as [Hp1 Hp2].
    assert (Hdi : diag_run s i = (diag_run_pred s i + 1)%nat)
      by now apply diag_run_unpopular.
    assert (Hdj : diag_run s j = (diag_run_pred s j + 1)%nat)
      by (apply diag_run_unpopular; now rewrite Hje).
    assert (Hk : (match_size best <? j2len_get_pred j2len j + 1)%nat = false)
      by (apply Nat.ltb_ge; lia).
    rewrite Hk.
    destruct (IH ((j, (j2len_get_pred j2len j + 1)%nat) :: newj2len))
      as (new' & Hscan & Hq & Hi).
    + intros j' Hj'. apply Hl. now right.
    + intros j'. cbn [j2len_get].
      destruct (Nat.eqb_spec j j') as [<- | _]; [lia | apply Hnew].
    + exists new'. split; [exact Hscan |]. split; [exact Hq |].
      rewrite Hi. cbn [j2len_get].
      destruct (Nat.eqb_spec j i) as [E | _]; [contradiction | reflexivity].
Qed.

Lemma scan_row_self (s : list ascii) (i : nat) (j2len : list (nat * nat))
      (best : Match) :
  (i < length s)%nat ->
  row_inv s i j2len best ->
  exists newj2len best',
    scan_row 0 (length s) i j2len (b2j_get s (elt_at s i)) [] best =
      (newj2len, best') /\
    row_inv s (S i) newj2len best'.
Proof.
  intros Hi Hinv. destruct best as [[besti bestj] bestsize].
  destruct Hinv as (Hdiag & Hend & Hprev & Hcover & Hexact).
  unfold b2j_get.
  destruct (bpopular s (elt_at s i)) eqn:Hpop.
  - (* a popular element has no entry in b2j *)
    exists [], (besti, bestj, bestsize). split; [reflexivity |].
    pose proof (diag_run_popular s i Hpop) as Hz.
    unfold row_inv. cbn [j2len_get_pred diag_run_pred].
    repeat split; try lia.
    + destruct j; simpl; lia.
    + destruct j; simpl; lia.
    + intros i' Hi'. destruct (Nat.eq_dec i' i) as [-> | N];
        [lia | apply Hcover; lia].
    + simpl. lia.
  - destruct (indices_split s i Hi) as (l1 & l3 & -> & H1 & H3).
    pose proof (diag_run_unpopular s i Hpop) as Hdi.
    rewrite scan_row_app
      by (intros j Hj; destruct (H1 j Hj); lia).
    (* the cells left of the diagonal *)
    destruct (scan_row_keep s i j2len (besti, bestj, bestsize) l1 [])
      as (new1 & -> & Hq1 & Hg1); auto.
    { intros j Hj. destruct (H1 j Hj) as [Hlt He].
      repeat split; try lia; try exact He.
      left. cbn [match_size snd]. apply Hcover. exact Hlt. }
    { intros j. simpl. lia. }
    (* the diagonal cell *)
    cbn [scan_row]. change (i <? 0)%nat with false. cbv iota.
    assert (Hb : (length s <=? i)%nat = false) by now apply Nat.leb_gt.
    rewrite Hb. rewrite Hexact, <- Hdi.
    set (best1 := if (match_size (besti, bestj, bestsize) <? diag_run s i)%nat
                  then ((i + 1 - diag_run s i)%nat,
                        (i + 1 - diag_run s i)%nat, diag_run s i)
                  else (besti, bestj, bestsize)).
    pose proof (diag_run_le s i) as Hle.
    assert (Hbest1 :
              fst (fst best1) = snd (fst best1) /\
              (fst (fst best1) + match_size best1 <= S i)%nat /\
              (bestsize <= match_size best1)%nat /\
              (diag_run s i <= match_size best1)%nat).
    { unfold best1. cbn [match_size snd].
      destruct (Nat.ltb_spec bestsize (diag_run s i));
        cbn [fst snd match_size]; repeat split; lia. }
    destruct Hbest1 as (Hd1 & He1 & Hm1 & Hc1).
    (* the cells right of the diagonal *)
    destruct (scan_row_keep s i j2len best1 l3
                            ((i, diag_run s i) :: new1))
      as (new3 & -> & Hq3 & Hg3); auto.
    { intros j Hj. destruct (H3 j Hj) as [Hlt He].
      repeat split; try lia; try exact He. }
    { intros j. cbn [j2len_get].
      destruct (Nat.eqb_spec i j) as [<- | _]; [lia | apply Hq1]. }
    exists new3, best1. split; [reflexivity |].
    destruct best1 as [[b1i b1j] b1s]. cbn [fst snd match_size] in *.
    unfold row_inv. cbn [j2len_get_pred diag_run_pred].
    repeat split; try assumption.
    + destruct j; simpl; [lia | apply Hq3].
    + destruct j; simpl; [lia | apply Hq3].
    + intros i' Hi'. destruct (Nat.eq_dec i' i) as [-> | N]; [exact Hc1 |].
      specialize (Hcover i'). lia.
    + rewrite Hg3. cbn [j2len_get]. now rewrite Nat.eqb_refl.
Qed.

Lemma scan_rows_self (s : list ascii) (m i : nat) (j2len : list (nat * nat))
      (best : Match) :
  (i + m <= length s)%nat ->
  row_inv s i j2len best ->
  exists besti bestsize,
    scan_rows s s 0 (length s) (seq i m) j2len best =
      (besti, besti, bestsize) /\
    (besti + bestsize <= i + m)%nat.
Proof.
  revert i j2len best. induction m as [| m IH]; intros i j2len best Hm Hinv.
  - destruct best as [[besti bestj] bestsize].
    destruct Hinv as (-> & Hend & _).
    exists bestj, bestsize. simpl. split; [reflexivity | lia].
  - cbn [seq scan_rows].
    destruct (scan_row_self s i j2len best) as (new & best' & -> & Hinv');
      [lia | exact Hinv |].
    destruct (IH (S i) new best') as (bi & bs & Hscan & Hend);
      [lia | exact Hinv' |].
    exists bi, bs. split; [exact Hscan | lia].
Qed.

Lemma row_inv_initial (s : list ascii) : row_inv s 0 [] (0, 0, 0)%nat.
Proof.
  unfold row_inv. repeat split; simpl; try lia;
    destruct j; simpl; lia.
Qed.

Lemma extend_left_self (s : list ascii) (besti bestsize : nat) :
  extend_left s s false 0 0 besti besti bestsize =
  (0, 0, bestsize + besti)%nat.
Proof.
  revert bestsize. induction besti as [| i IH]; intros bestsize.
  - simpl. now rewrite Nat.add_0_r.
  - cbn [extend_left]. unfold isbjunk.
    rewrite Ascii.eqb_refl. change (0 <? S i)%nat with true.
    cbn [andb Bool.eqb]. rewrite IH. f_equal. lia.
Qed.

Lemma extend_right_self (s : list ascii) (steps bestsize : nat) :
  (bestsize + steps = length s)%nat ->
  extend_right s s false steps (length s) (length s) 0 0 bestsize =
  (0, 0, length s)%nat.
Proof.
  revert bestsize. induction steps as [| steps IH]; intros bestsize H.
  - simpl. f_equal. lia.
  - cbn [extend_right]. unfold isbjunk.
    rewrite Ascii.eqb_refl. cbn [Nat.add].
    assert (Hlt : (bestsize <? length s)%nat = true)
      by (apply Nat.ltb_lt; lia).
    rewrite Hlt. cbn [andb Bool.eqb]. apply IH. lia.
Qed.

Lemma find_longest_match_self (s : list ascii) :
  find_longest_match s s 0 (length s) 0 (length s) =
  (0, 0, length s)%nat.
Proof.
  unfold find_longest_match. rewrite Nat.sub_0_r.
  destruct (scan_rows_self s (length s) 0 [] (0, 0, 0)%nat)
    as (bi & bs & -> & Hend);
    [lia | apply row_inv_initial |].
  unfold extend at 2. rewrite extend_left_self.
  rewrite extend_right_self by (simpl; lia).
  unfold extend. cbn [extend_left].
  destruct (length s) as [| n] eqn:E; [reflexivity |].
  cbn [Nat.add]. rewrite Nat.sub_diag. reflexivity.
Qed.

Lemma get_matching_blocks_self (s : list ascii) :
  s <> [] ->
  get_matching_blocks s s =
  Some [(0, 0, length s); (length s, length s, 0)]%nat.
Proof.
  intros Hs. unfold get_matching_blocks.
  destruct (blocks_fuel_pos s s) as [fuel ->].
  cbn [blocks_loop]. rewrite find_longest_match_self.
  assert (Hn : (length s =? 0)%nat = false).
  { apply Nat.eqb_neq. destruct s; [contradiction | discriminate]. }
  cbv beta iota zeta.
  rewrite Hn. change (0 <? 0)%nat with false. cbn [andb Nat.add].
  rewrite Nat.ltb_irrefl. cbn [app].
  assert (Hloop : forall f, blocks_loop s s f [] [(0, 0, length s)%nat] =
                            Some [(0, 0, length s)%nat])
    by (intros [| f]; reflexivity).
  rewrite Hloop.
  change (MatchSort.sort [(0, 0, length s)%nat])
    with [(0, 0, length s)%nat].
  cbn [collapse Nat.add Nat.eqb andb]. rewrite Hn. reflexivity.
Qed.

Lemma ratio_self (s : list ascii) : s <> [] -> ratio s s = Some 1%R.
Proof.
  intros Hs. unfold ratio. rewrite (get_matching_blocks_self s Hs).
  cbn [map match_size snd fold_right]. unfold _calculate_ratio.
  assert (Hpos : (0 < length s)%nat)
    by (destruct s; [contradiction | simpl; lia]).
  destruct (Nat.eqb_spec (length s + length s) 0) as [E | _]; [lia |].
  f_equal. rewrite Nat.add_0_r, plus_INR.
  apply lt_0_INR in Hpos. field. lra.
Qed.

(** ** The queue loop always finishes within its fuel *)

Section Bounds.

Variables a b : list ascii.
Variables alo ahi blo bhi : nat.
Hypothesis Ha : (alo <= ahi)%nat.
Hypothesis Hb : (blo <= bhi)%nat.

Lemma scan_row_inside (i : nat) (j2len : list (nat * nat)) (js : list nat)
      (newj2len : list (nat * nat)) (best : Match) :
  (alo <= i)%nat ->
  lengths_bounded blo (i - alo) j2len ->
  lengths_bounded blo (i + 1 - alo) newj2len ->
  block_inside alo blo bhi (i + 1) best ->
  lengths_bounded blo (i + 1 - alo)
    (fst (scan_row blo bhi i j2len js newj2len best)) /\
  block_inside alo blo bhi (i + 1)
    (snd (scan_row blo bhi i j2len js newj2len best)).
Proof.
  intros Hi Hold. revert newj2len best.
  induction js as [| j js IH]; intros newj2len best Hnew Hin.
  - now split.
  - cbn [scan_row].
    destruct (Nat.ltb_spec j blo) as [Hjlo | Hjlo]; [now apply IH |].
    destruct (Nat.leb_spec bhi j) as [Hjhi | Hjhi]; [now split |].
    assert (Hk : (j2len_get_pred j2len j + 1 <= i + 1 - alo)%nat /\
                 (j2len_get_pred j2len j + 1 <= j + 1 - blo)%nat).
    { destruct j as [| j']; cbn [j2len_get_pred]; [lia |].
      destruct (Hold j'). lia. }
    apply IH.
    + intros j'. cbn [j2len_get].
      destruct (Nat.eqb_spec j j') as [<- | _]; [exact Hk | apply Hnew].
    + destruct (match_size best <? j2len_get_pred j2len j + 1)%nat;
        [| exact Hin].
      unfold block_inside. lia.
Qed.

Lemma scan_rows_inside (m i : nat) (j2len : list (nat * nat)) (best : Match) :
  (alo <= i)%nat ->
  lengths_bounded blo (i - alo) j2len ->
  block_inside alo blo bhi i best ->
  block_inside alo blo bhi (i + m) (scan_rows a b blo bhi (seq i m) j2len best).
Proof.
  revert i j2len best. induction m as [| m IH]; intros i j2len best Hi Hd Hin.
  - simpl. now rewrite Nat.add_0_r.
  - cbn [seq scan_rows].
    pose proof (scan_row_inside i j2len (b2j_get b (elt_at a i)) [] best
                  Hi Hd) as Hrow.
    destruct (scan_row blo bhi i j2len (b2j_get b (elt_at a i)) [] best)
      as [new best'].
    destruct Hrow as [Hd' Hin'].
    + intros j. simpl. lia.
    + destruct best as [[bi bj] bs]. unfold block_inside in *. lia.
    + replace (i + S m)%nat with (S i + m)%nat by lia.
      apply IH; [lia | |].
      * replace (S i - alo)%nat with (i + 1 - alo)%nat by lia. exact Hd'.
      * replace (S i) with (i + 1)%nat by lia. exact Hin'.
Qed.

Lemma extend_left_inside (junk : bool) (besti bestj bestsize : nat) :
  block_inside alo blo bhi ahi (besti, bestj, bestsize) ->
  block_inside alo blo bhi ahi
    (extend_left a b junk alo blo besti bestj bestsize).
Proof.
  revert bestj bestsize.
  induction besti as [| i IH]; intros bestj bestsize Hin.
  - exact Hin.
  - destruct bestj as [| j]; [exact Hin |]. cbn [extend_left].
    destruct (Nat.ltb_spec alo (S i)); cbn [andb]; [| exact Hin].
    destruct (Nat.ltb_spec blo (S j)); cbn [andb]; [| exact Hin].
    destruct (Bool.eqb _ junk && Ascii.eqb _ _); [| exact Hin].
    apply IH. unfold block_inside in *. lia.
Qed.

Lemma extend_right_inside (junk : bool) (steps besti bestj bestsize : nat) :
  block_inside alo blo bhi ahi (besti, bestj, bestsize) ->
  block_inside alo blo bhi ahi
    (extend_right a b junk steps ahi bhi besti bestj bestsize).
Proof.
  revert bestsize.
  induction steps as [| steps IH]; intros bestsize Hin.
  - exact Hin.
  - cbn [extend_right].
    destruct (Nat.ltb_spec (besti + bestsize) ahi); cbn [andb];
      [| exact Hin].
    destruct (Nat.ltb_spec (bestj + bestsize) bhi); cbn [andb];
      [| exact Hin].
    destruct (Bool.eqb _ junk && Ascii.eqb _ _); [| exact Hin].
    apply IH. unfold block_inside in *. lia.
Qed.

Lemma extend_inside (junk : bool) (m : Match) :
  block_inside alo blo bhi ahi m ->
  block_inside alo blo bhi ahi (extend a b junk alo ahi blo bhi m).
Proof.
  intros Hin. destruct m as [[bi bj] bs]. unfold extend.
  pose proof (extend_left_inside junk bi bj bs Hin) as Hl.
  destruct (extend_left a b junk alo blo bi bj bs) as [[bi1 bj1] bs1].
  now apply extend_right_inside.
Qed.

(** The block [find_longest_match] returns lies inside the two ranges it
    was asked to search. *)
Lemma find_longest_match_inside :
  let '(i, j, k) := find_longest_match a b alo ahi blo bhi in
  (alo <= i)%nat /\ (i + k <= ahi)%nat /\ (blo <= j)%nat /\ (j + k <= bhi)%nat.
Proof.
  assert (H : block_inside alo blo bhi ahi
                (find_longest_match a b alo ahi blo bhi)).
  { unfold find_longest_match. do 2 apply extend_inside.
    replace ahi with (alo + (ahi - alo))%nat at 1 by lia.
    apply scan_rows_inside.
    - lia.
    - intros j. simpl. lia.
    - unfold block_inside. lia. }
  exact H.
Qed.

End Bounds.

Lemma blocks_loop_total (a b : list ascii) (fuel : nat) :
  forall queue matching_blocks,
    Forall well_formed_range queue ->
    (queue_measure queue <= fuel)%nat ->
    exists blocks, blocks_loop a b fuel queue matching_blocks = Some blocks.
Proof.
  induction fuel as [| fuel IH]; intros queue blocks Hwf Hm.
  - destruct queue as [| [[[alo ahi] blo] bhi] queue].
    + now exists blocks.
    + simpl in Hm. lia.
  - destruct queue as [| [[[alo ahi] blo] bhi] queue].
    + now exists blocks.
    + cbn [blocks_loop]. inversion Hwf as [| q qs Hq Hwf']; subst.
      destruct Hq as [Ha Hb].
      pose proof (find_longest_match_inside a b alo ahi blo bhi Ha Hb) as Hin.
      destruct (find_longest_match a b alo ahi blo bhi) as [[i j] k].
      destruct Hin as (Hi & Hik & Hj & Hjk).
      cbn [queue_measure] in Hm.
      destruct (Nat.eqb_spec k 0) as [-> | Hk].
      * apply IH; [exact Hwf' | lia].
      * apply IH.
        -- destruct (Nat.ltb_spec alo i), (Nat.ltb_spec blo j),
             (Nat.ltb_spec (i + k) ahi), (Nat.ltb_spec (j + k) bhi);
             cbn [andb]; repeat constructor; try assumption; lia.
        -- destruct (Nat.ltb_spec alo i), (Nat.ltb_spec blo j),
             (Nat.ltb_spec (i + k) ahi), (Nat.ltb_spec (j + k) bhi);
             cbn [andb queue_measure]; lia.
Qed.

Lemma get_matching_blocks_total (a b : list ascii) :
  exists blocks, get_matching_blocks a b = Some blocks.
Proof.
  unfold get_matching_blocks.
  destruct (blocks_loop_total a b (blocks_fuel a b)
              [(0, length a, 0, length b)%nat] []) as [blocks ->].
  - repeat constructor; lia.
  - unfold blocks_fuel. simpl. lia.
  - now eexists.
Qed.

(** [ratio] always returns a value: the fuel of the queue loop is never
    exhausted. *)
Lemma ratio_total (a b : list ascii) : exists r, ratio a b = Some r.
Proof.
  unfold ratio. destruct (get_matching_blocks_total a b) as [blocks ->].
  now eexists.
Qed.

(** ** [calculate_fingerprint_similarity] *)

Lemma list_ascii_of_string_nonempty (s : string) :
  s <> EmptyString -> list_ascii_of_string s <> [].
Proof.
  destruct s; [intros H; now elim H | discriminate].
Qed.

Lemma no_common_element_nil_r (a : list ascii) : no_common_element a [].
Proof. intros c _ []. Qed.

Lemma no_common_element_nil_l (b : list ascii) : no_common_element [] b.
Proof. intros c []. Qed.

Lemma length_sum_nonzero (a b : list ascii) :
  a <> [] \/ b <> [] -> (length a + length b =? 0)%nat = false.
Proof.
  intros H. apply Nat.eqb_neq.
  destruct a, b; simpl; try lia. destruct H as [H | H]; now elim H.
Qed.

(** The example of [difflib]'s documentation. *)
Lemma ratio_abcd_bcde :
  calculate_fingerprint_similarity "abcd" "bcde" = Some 0.75%R.
Proof.
  unfold calculate_fingerprint_similarity, ratio.
  assert (E : get_matching_blocks (list_ascii_of_string "abcd")
                                  (list_ascii_of_string "bcde") =
              Some [(1, 0, 3); (4, 4, 0)]%nat)
    by (vm_compute; reflexivity).
  rewrite E. cbn [map match_size snd fold_right Nat.add].
  unfold _calculate_ratio. cbn [length list_ascii_of_string Nat.add Nat.eqb].
  f_equal. simpl. lra.
Qed.

(** In a sequence of two hundred equal characters that character is
    popular, so it has no entry in [b2j]. *)
Lemma popular_in_long_run :
  bpopular (repeat "a"%char 200) "a"%char = true /\
  b2j_get (repeat "a"%char 200) "a"%char = [].
Proof. split; vm_compute; reflexivity. Qed.

(** C8.  The sequence-matching ratio is 1.0 for two empty strings, 0.0
    when exactly one string is empty, 1.0 for two equal non-empty strings
    and 0.0 for two non-empty strings without a common character, as on
    the inputs of the specification. *)
Theorem C8_string_similarity :
  calculate_fingerprint_similarity "" "" = Some 1 /\
  (forall s, s <> EmptyString ->
     calculate_fingerprint_similarity s "" = Some 0 /\
     calculate_fingerprint_similarity "" s = Some 0) /\
  (forall s, s <> EmptyString ->
     calculate_fingerprint_similarity s s = Some 1) /\
  (forall s t, s <> EmptyString -> t <> EmptyString ->
     no_common_element (list_ascii_of_string s) (list_ascii_of_string t) ->
     calculate_fingerprint_similarity s t = Some 0) /\
  calculate_fingerprint_similarity "abc" "" = Some 0 /\
  calculate_fingerprint_similarity "abcde" "abcde" = Some 1 /\
  calculate_fingerprint_similarity "abc" "xyz" = Some 0.
Proof.
  unfold calculate_fingerprint_similarity.
  assert (Hempty : forall s, s <> EmptyString ->
            ratio (list_ascii_of_string s) [] = Some 0 /\
            ratio [] (list_ascii_of_string s) = Some 0).
  { intros s Hs. apply list_ascii_of_string_nonempty in Hs. split.
    - rewrite ratio_no_common by apply no_common_element_nil_r.
      now rewrite length_sum_nonzero by now left.
    - rewrite ratio_no_common by apply no_common_element_nil_l.
      now rewrite length_sum_nonzero by now right. }
  assert (Hself : forall s, s <> EmptyString ->
            ratio (list_ascii_of_string s) (list_ascii_of_string s) = Some 1).
  { intros s Hs. apply ratio_self. now apply list_ascii_of_string_nonempty. }
  assert (Hdisj : forall s t, s <> EmptyString -> t <> EmptyString ->
            no_common_element (list_ascii_of_string s)
                              (list_ascii_of_string t) ->
            ratio (list_ascii_of_string s) (list_ascii_of_string t) = Some 0).
  { intros s t Hs _ Hd. rewrite ratio_no_common by exact Hd.
    rewrite length_sum_nonzero; [reflexivity |].
    left. now apply list_ascii_of_string_nonempty. }
  split; [| split; [| split; [| split; [| split; [| split]]]]].
  - change (list_ascii_of_string "") with (@nil ascii).
    rewrite ratio_no_common by apply no_common_element_nil_l. reflexivity.
  - exact Hempty.
  - exact Hself.
  - exact Hdisj.
  - apply (Hempty "abc"%string). discriminate.
  - apply (Hself "abcde"%string). discriminate.
  - apply (Hdisj "abc"%string "xyz"%string); try discriminate.
    simpl. intros c [<- | [<- | [<- | []]]] [H | [H | [H | []]]];
      discriminate.
Qed.

Lemma C8_string_similarity_witness :
  calculate_fingerprint_similarity "a1b2c3d4" "a1b2c3d4" = Some 1 /\
  calculate_fingerprint_similarity "a1b2" "" = Some 0.
Proof.
  split.
  - apply (proj1 (proj2 (proj2 C8_string_similarity)) "a1b2c3d4"%string).
    discriminate.
  - apply (proj1 (proj2 C8_string_similarity) "a1b2"%string).
    discriminate.
Defined.

(* ================================================================== *)
(** * Further properties of the similarity scorer *)

(** ** When the scorer returns and what it raises *)

Lemma Rmax_zero_dec (a b : R) : {Rmax a b = 0} + {Rmax a b <> 0}.
Proof. apply Req_dec_T. Qed.

(** A report is returned when no divisor is zero and the vector lengths
    agree. *)
Lemma esd_returns (A B : Characteristics) :
  Rmax (duration A) (duration B) <> 0 ->
  Rmax (rms_energy A) (rms_energy B) <> 0 ->
  Rmax (spectral_centroid_mean A) (spectral_centroid_mean B) <> 0 ->
  Rmax (spectral_rolloff_mean A) (spectral_rolloff_mean B) <> 0 ->
  Rmax (tempo A) (tempo B) <> 0 ->
  length (mfcc_mean A) = length (mfcc_mean B) ->
  length (chroma_mean A) = length (chroma_mean B) ->
  exists r, enhanced_similarity_detection A B = Ok r.
Proof.
  intros Nd Ne Nc Nro Nt Em Ech.
  destruct (corrcoef_same_length _ _ Em) as [m Hm].
  destruct (corrcoef_same_length _ _ Ech) as [ch Hch].
  eexists.
  apply (esd_Ok_intro A B
           (closeness_formula (duration A) (duration B))
           (closeness_formula (rms_energy A) (rms_energy B))
           (closeness_formula (spectral_centroid_mean A)
                              (spectral_centroid_mean B))
           (closeness_formula (spectral_rolloff_mean A)
                              (spectral_rolloff_mean B))
           (closeness_formula (tempo A) (tempo B)) m ch);
    try (apply closeness_ok; assumption); assumption.
Qed.

(** X1.  A report is returned exactly when none of the five divisors
    [max(a, b)] is zero and the cepstral and chroma vectors of the two
    summaries have equal lengths. *)
Theorem esd_returns_iff (A B : Characteristics) :
  (exists r, enhanced_similarity_detection A B = Ok r) <->
  (Rmax (duration A) (duration B) <> 0 /\
   Rmax (rms_energy A) (rms_energy B) <> 0 /\
   Rmax (spectral_centroid_mean A) (spectral_centroid_mean B) <> 0 /\
   Rmax (spectral_rolloff_mean A) (spectral_rolloff_mean B) <> 0 /\
   Rmax (tempo A) (tempo B) <> 0 /\
   length (mfcc_mean A) = length (mfcc_mean B) /\
   length (chroma_mean A) = length (chroma_mean B)).
Proof.
  split.
  - intros [r Hr].
    destruct (esd_Ok_inv A B r Hr)
      as (d & e & c & ro & m & ch & t & Hd & He & Hc & Hro & Hm & Hch & Ht & _).
    apply closeness_Ok_inv in Hd, He, Hc, Hro, Ht.
    repeat split; try tauto.
    + destruct (Nat.eq_dec (length (mfcc_mean A)) (length (mfcc_mean B)))
        as [E | N]; [exact E |].
      rewrite (corrcoef_length_mismatch _ _ N) in Hm. discriminate.
    + destruct (Nat.eq_dec (length (chroma_mean A)) (length (chroma_mean B)))
        as [E | N]; [exact E |].
      rewrite (corrcoef_length_mismatch _ _ N) in Hch. discriminate.
  - intros (Nd & Ne & Nc & Nro & Nt & Em & Ech).
    now apply esd_returns.
Qed.

(** X2.  The exception raised follows the order of evaluation: a zero divisor
    among duration, energy, spectral centroid and spectral rolloff raises
    [ZeroDivisionError] whatever the vectors are; otherwise a length
    mismatch raises [ValueError], also when the tempo divisor is zero;
    the tempo division raises only when the vector lengths agree. *)
Theorem esd_exception_order (A B : Characteristics) :
  (enhanced_similarity_detection A B = Raise ZeroDivisionError <->
   (Rmax (duration A) (duration B) = 0 \/
    Rmax (rms_energy A) (rms_energy B) = 0 \/
    Rmax (spectral_centroid_mean A) (spectral_centroid_mean B) = 0 \/
    Rmax (spectral_rolloff_mean A) (spectral_rolloff_mean B) = 0 \/
    (length (mfcc_mean A) = length (mfcc_mean B) /\
     length (chroma_mean A) = length (chroma_mean B) /\
     Rmax (tempo A) (tempo B) = 0))) /\
  (enhanced_similarity_detection A B = Raise ValueError <->
   (Rmax (duration A) (duration B) <> 0 /\
    Rmax (rms_energy A) (rms_energy B) <> 0 /\
    Rmax (spectral_centroid_mean A) (spectral_centroid_mean B) <> 0 /\
    Rmax (spectral_rolloff_mean A) (spectral_rolloff_mean B) <> 0 /\
    (length (mfcc_mean A) <> length (mfcc_mean B) \/
     length (chroma_mean A) <> length (chroma_mean B)))).
Proof.
  unfold enhanced_similarity_detection.
  destruct (Rmax_zero_dec (duration A) (duration B)) as [Zd | Nd].
  { rewrite (closeness_zero _ _ Zd). cbn [bind].
    split; split; intros H; try discriminate; tauto. }
  rewrite (closeness_ok _ _ Nd). cbn [bind].
  destruct (Rmax_zero_dec (rms_energy A) (rms_energy B)) as [Ze | Ne].
  { rewrite (closeness_zero _ _ Ze). cbn [bind].
    split; split; intros H; try discriminate; tauto. }
  rewrite (closeness_ok _ _ Ne). cbn [bind].
  destruct (Rmax_zero_dec (spectral_centroid_mean A)
                          (spectral_centroid_mean B)) as [Zc | Nc].
  { rewrite (closeness_zero _ _ Zc). cbn [bind].
    split; split; intros H; try discriminate; tauto. }
  rewrite (closeness_ok _ _ Nc). cbn [bind].
  destruct (Rmax_zero_dec (spectral_rolloff_mean A)
                          (spectral_rolloff_mean B)) as [Zro | Nro].
  { rewrite (closeness_zero _ _ Zro). cbn [bind].
    split; split; intros H; try discriminate; tauto. }
  rewrite (closeness_ok _ _ Nro). cbn [bind].
  destruct (Nat.eq_dec (length (mfcc_mean A)) (length (mfcc_mean B)))
    as [Em | Nm].
  2:{ rewrite (corrcoef_length_mismatch _ _ Nm). cbn [bind].
      split; split; intros H; try discriminate; try tauto. }
  destruct (corrcoef_same_length _ _ Em) as [m ->]. cbn [bind].
  destruct (Nat.eq_dec (length (chroma_mean A)) (length (chroma_mean B)))
    as [Ech | Nch].
  2:{ rewrite (corrcoef_length_mismatch _ _ Nch). cbn [bind].
      split; split; intros H; try discriminate; try tauto. }
  destruct (corrcoef_same_length _ _ Ech) as [ch ->]. cbn [bind].
  destruct (Rmax_zero_dec (tempo A) (tempo B)) as [Zt | Nt].
  { rewrite (closeness_zero _ _ Zt). cbn [bind].
    split; split; intros H; try discriminate; tauto. }
  rewrite (closeness_ok _ _ Nt). cbn [bind].
  split; split; intros H; try discriminate; tauto.
Qed.

(** ** Scalar closeness *)



(** X4.  The closeness is exactly 1 only for two equal, non-zero
    measurements. *)
Theorem closeness_one_iff (a b : R) :
  closeness a b = Ok 1 <-> a = b /\ a <> 0.
Proof.
  split.
  - intros H. apply closeness_Ok_inv in H. destruct H as [Hm H].
    unfold closeness_formula in H.
    assert (Hq : Rabs (a - b) / Rmax a b = 0).
    { unfold Rmax in H at 1.
      destruct (Rle_dec 0 (1 - Rabs (a - b) / Rmax a b)); lra. }
    assert (Habs : Rabs (a - b) = 0).
    { unfold Rdiv in Hq. apply Rmult_integral in Hq.
      destruct Hq as [Hq | Hq]; [exact Hq |].
      exfalso. now apply (Rinv_neq_0_compat (Rmax a b)). }
    assert (E : a = b).
    { destruct (Req_dec_T (a - b) 0) as [E | N]; [lra |].
      apply Rabs_no_R0 in N. contradiction. }
    split; [exact E |]. subst b. intros Z. subst a.
    apply Hm. apply Rmax_left. lra.
  - intros [<- Ha]. now apply closeness_self.
Qed.

(** X5.  A measurement that is zero or negative scores 0 against a positive
    one: the closeness of a silent feature and an audible one is 0. *)
Theorem closeness_nonpositive_vs_positive (a b : R) :
  a <= 0 -> 0 < b -> closeness a b = Ok 0 /\ closeness b a = Ok 0.
Proof.
  intros Ha Hb.
  assert (H : closeness a b = Ok 0).
  { rewrite closeness_ok by (apply Rmax_pos_neq0; now right).
    f_equal. unfold closeness_formula.
    rewrite (Rmax_right a b) by lra. rewrite Rabs_left1 by lra.
    apply Rmax_left.
    assert (Hq : 1 - - (a - b) / b = a / b) by (field; lra).
    rewrite Hq. unfold Rdiv.
    assert (0 < / b) by now apply Rinv_0_lt_compat. nra. }
  split; [exact H | now rewrite closeness_comm].
Qed.

Lemma closeness_nonpositive_vs_positive_witness :
  closeness 0 0.5 = Ok 0 /\ closeness 0.5 0 = Ok 0.
Proof. apply (closeness_nonpositive_vs_positive 0 0.5); lra. Defined.

(** X6.  Negative measurements are not rejected and leave the unit interval:
    two distinct negative values score more than 1. *)
Theorem closeness_negative_exceeds_one (a b : R) :
  a < 0 -> b < 0 -> a <> b ->
  exists s, closeness a b = Ok s /\ 1 < s.
Proof.
  intros Ha Hb Hab.
  assert (Hm : Rmax a b < 0) by (apply Rmax_case; lra).
  exists (closeness_formula a b).
  split; [apply closeness_ok; lra |].
  unfold closeness_formula.
  assert (Hpos : 0 < Rabs (a - b)) by (apply Rabs_pos_lt; lra).
  assert (Hq : Rabs (a - b) / Rmax a b < 0).
  { unfold Rdiv.
    assert (/ Rmax a b < 0) by now apply Rinv_lt_0_compat. nra. }
  eapply Rlt_le_trans; [| apply Rmax_r]. lra.
Qed.

Lemma closeness_negative_exceeds_one_witness :
  exists s, closeness (-1) (-2) = Ok s /\ 1 < s.
Proof. apply (closeness_negative_exceeds_one (-1) (-2)); lra. Defined.

(** ** Ratio closeness *)


(** ** Correlation *)













(** ** The aggregate and its interpretation *)





(** X12.  The table of [main_enhanced_analysis] is monotone over real scores
    and never answers IDENTICAL; a [nan] aggregate is labelled
    DIFFERENT. *)
Theorem main_enhanced_interpretation_monotone (x y : R) :
  x <= y ->
  exists lx ly,
    label_of_message (main_enhanced_interpretation (Num x)) = Some lx /\
    label_of_message (main_enhanced_interpretation (Num y)) = Some ly /\
    (label_rank lx <= label_rank ly)%nat /\
    lx <> IDENTICAL /\ ly <> IDENTICAL /\
    label_of_message (main_enhanced_interpretation NaN) = Some DIFFERENT.
Proof.
  intros Hxy.
  destruct (table_4_1_total x) as [lx Hx].
  destruct (table_4_1_total y) as [ly Hy].
  exists (match lx with IDENTICAL => VERY_SIMILAR | _ => lx end),
         (match ly with IDENTICAL => VERY_SIMILAR | _ => ly end).
  split; [now apply main_enhanced_interpretation_table |].
  split; [now apply main_enhanced_interpretation_table |].
  pose proof (table_4_1_monotone x y lx ly Hx Hy Hxy) as Hm.
  split; [destruct lx, ly; simpl in *; lia |].
  split; [destruct lx; discriminate |].
  split; [destruct ly; discriminate | reflexivity].
Qed.

Lemma main_enhanced_interpretation_monotone_witness :
  exists lx ly,
    label_of_message (main_enhanced_interpretation (Num 0.3)) = Some lx /\
    label_of_message (main_enhanced_interpretation (Num 0.99)) = Some ly /\
    (label_rank lx <= label_rank ly)%nat /\
    lx <> IDENTICAL /\ ly <> IDENTICAL /\
    label_of_message (main_enhanced_interpretation NaN) = Some DIFFERENT.
Proof.
  apply (main_enhanced_interpretation_monotone 0.3 0.99). lra.
Defined.




(* ================================================================== *)
(** * Further properties of the sequence matcher *)

(** ** The matched total is bounded by the shorter sequence *)

Lemma total_size_app (l1 l2 : list Match) :
  total_size (l1 ++ l2) = (total_size l1 + total_size l2)%nat.
Proof.
  unfold total_size. induction l1 as [| m l1 IH]; simpl; [reflexivity |].
  rewrite IH. lia.
Qed.

Lemma total_size_single (i j k : nat) : total_size [(i, j, k)] = k.
Proof. unfold total_size, match_size. simpl. lia. Qed.

Lemma total_size_perm (l1 l2 : list Match) :
  Permutation l1 l2 -> total_size l1 = total_size l2.
Proof.
  unfold total_size. induction 1; simpl; lia.
Qed.

Lemma collapse_total_size (blocks : list Match) (i1 j1 k1 : nat)
      (non_adjacent : list Match) :
  total_size (collapse blocks i1 j1 k1 non_adjacent) =
  (total_size non_adjacent + k1 + total_size blocks)%nat.
Proof.
  revert i1 j1 k1 non_adjacent.
  induction blocks as [| [[i2 j2] k2] blocks IH]; intros i1 j1 k1 acc.
  - cbn [collapse]. destruct (Nat.eqb_spec k1 0) as [-> | _].
    + unfold total_size. simpl. lia.
    + rewrite total_size_app. unfold total_size. simpl. lia.
  - cbn [collapse].
    destruct ((i1 + k1 =? i2)%nat && (j1 + k1 =? j2)%nat).
    + rewrite IH. unfold total_size. simpl. unfold match_size. simpl. lia.
    + rewrite IH. destruct (Nat.eqb_spec k1 0) as [-> | _].
      * unfold total_size. simpl. unfold match_size. simpl. lia.
      * rewrite total_size_app. unfold total_size. simpl.
        unfold match_size. simpl. lia.
Qed.

(** What [get_matching_blocks] returns, in terms of the blocks the queue
    loop found. *)
Lemma get_matching_blocks_inv (a b : list ascii) (blocks : list Match) :
  get_matching_blocks a b = Some blocks ->
  exists raw,
    blocks_loop a b (blocks_fuel a b) [(0, length a, 0, length b)%nat] []
      = Some raw /\
    blocks = collapse (MatchSort.sort raw) 0 0 0 []
               ++ [(length a, length b, 0%nat)] /\
    total_size blocks = total_size raw.
Proof.
  unfold get_matching_blocks.
  destruct (blocks_loop a b (blocks_fuel a b) _ []) as [raw |];
    [| discriminate].
  intros H. injection H as <-. exists raw.
  split; [reflexivity |]. split; [reflexivity |].
  rewrite total_size_app, collapse_total_size.
  rewrite <- (total_size_perm raw (MatchSort.sort raw))
    by apply MatchSort.Permuted_sort.
  unfold total_size. simpl. lia.
Qed.

Lemma queue_cap_span (queue : list (nat * nat * nat * nat)) :
  (2 * queue_cap queue <= queue_span queue)%nat.
Proof.
  induction queue as [| [[[alo ahi] blo] bhi] queue IH]; simpl; lia.
Qed.

Lemma blocks_loop_size_le (a b : list ascii) (fuel : nat) :
  forall queue matching_blocks out,
    Forall well_formed_range queue ->
    blocks_loop a b fuel queue matching_blocks = Some out ->
    (total_size out <= total_size matching_blocks + queue_cap queue)%nat.
Proof.
  induction fuel as [| fuel IH]; intros queue mb out Hwf Hloop.
  - destruct queue as [| [[[alo ahi] blo] bhi] queue]; [| discriminate].
    injection Hloop as <-. simpl. lia.
  - destruct queue as [| [[[alo ahi] blo] bhi] queue].
    + injection Hloop as <-. simpl. lia.
    + cbn [blocks_loop] in Hloop.
      inversion Hwf as [| q qs Hq Hwf']; subst. destruct Hq as [Ha Hb].
      pose proof (find_longest_match_inside a b alo ahi blo bhi Ha Hb) as Hin.
      destruct (find_longest_match a b alo ahi blo bhi) as [[i j] k].
      cbv beta iota in Hin. destruct Hin as (Hi & Hik & Hj & Hjk).
      cbn [queue_cap].
      destruct (k =? 0)%nat eqn:Ek.
      * apply IH in Hloop; [lia | exact Hwf'].
      * apply Nat.eqb_neq in Ek. apply IH in Hloop.
        -- rewrite total_size_app, total_size_single in Hloop.
           revert Hloop.
           destruct (Nat.ltb_spec alo i), (Nat.ltb_spec blo j),
             (Nat.ltb_spec (i + k) ahi), (Nat.ltb_spec (j + k) bhi);
             cbn [andb queue_cap]; lia.
        -- destruct (Nat.ltb_spec alo i), (Nat.ltb_spec blo j),
             (Nat.ltb_spec (i + k) ahi), (Nat.ltb_spec (j + k) bhi);
             cbn [andb]; repeat constructor; try assumption; lia.
Qed.

Lemma get_matching_blocks_size_le (a b : list ascii) (blocks : list Match) :
  get_matching_blocks a b = Some blocks ->
  (total_size blocks <= Nat.min (length a) (length b))%nat.
Proof.
  intros H. destruct (get_matching_blocks_inv a b blocks H)
    as (raw & Hraw & _ & ->).
  apply blocks_loop_size_le in Hraw.
  - unfold total_size at 2 in Hraw. simpl in Hraw.
    rewrite !Nat.sub_0_r in Hraw. lia.
  - repeat constructor; lia.
Qed.

Lemma calculate_ratio_range (matches la lb : nat) :
  (matches <= Nat.min la lb)%nat ->
  0 <= _calculate_ratio matches (la + lb) <= 1.
Proof.
  intros H. unfold _calculate_ratio.
  destruct (Nat.eqb_spec (la + lb) 0) as [E | N]; [lra |].
  assert (Hpos : 0 < INR (la + lb)) by (apply lt_0_INR; lia).
  assert (Hm : 0 <= INR matches) by apply pos_INR.
  assert (H2 : 2 * INR matches <= INR (la + lb)).
  { replace (2 * INR matches) with (INR (2 * matches))
      by (rewrite mult_INR; simpl; lra).
    apply le_INR. lia. }
  split.
  - apply Rmult_le_pos; [lra |]. left. now apply Rinv_0_lt_compat.
  - apply (Rmult_le_reg_r (INR (la + lb))); [exact Hpos |].
    unfold Rdiv. rewrite Rmult_assoc, Rinv_l by lra. lra.
Qed.

(** The ratio of two sequences is defined and lies between 0 and 1. *)
Lemma ratio_range (a b : list ascii) :
  exists r, ratio a b = Some r /\ 0 <= r <= 1.
Proof.
  unfold ratio.
  destruct (get_matching_blocks_total a b) as [blocks Hb].
  rewrite Hb. eexists. split; [reflexivity |].
  apply calculate_ratio_range.
  apply (get_matching_blocks_size_le _ _ _ Hb).
Qed.

(** X14.  The fingerprint similarity is always defined and lies between 0 and
    1: the matcher never runs out of fuel and never matches more elements
    than the shorter fingerprint has. *)
Theorem calculate_fingerprint_similarity_range (fp1 fp2 : string) :
  exists r, calculate_fingerprint_similarity fp1 fp2 = Some r /\ 0 <= r <= 1.
Proof.
  unfold calculate_fingerprint_similarity.
  destruct (ratio_range (list_ascii_of_string fp1)
                        (list_ascii_of_string fp2)) as (r & Hr & Hrange).
  exists r. split; [exact Hr | exact Hrange].
Qed.

(** ** Every reported block is a common substring *)

Lemma b2j_get_In (b : list ascii) (elt : ascii) (j : nat) :
  In j (b2j_get b elt) -> elt_at b j = elt.
Proof.
  unfold b2j_get. destruct (bpopular b elt); [intros [] |].
  intros H. apply indices_from_In in H. destruct H as [_ H].
  now rewrite Nat.sub_0_r in H.
Qed.

Lemma scan_row_matching (a b : list ascii) (blo bhi i : nat)
      (j2len : list (nat * nat)) (js : list nat)
      (newj2len : list (nat * nat)) (best : Match) :
  row_matching a b i j2len ->
  (forall j, In j js -> elt_at b j = elt_at a i) ->
  row_matching a b (S i) newj2len ->
  block_matching a b best ->
  row_matching a b (S i)
    (fst (scan_row blo bhi i j2len js newj2len best)) /\
  block_matching a b (snd (scan_row blo bhi i j2len js newj2len best)).
Proof.
  intros Hold. revert newj2len best.
  induction js as [| j js IH]; intros newj2len best Hjs Hnew Hbest.
  - now split.
  - cbn [scan_row].
    assert (Hjs' : forall j', In j' js -> elt_at b j' = elt_at a i)
      by (intros j' Hj'; apply Hjs; now right).
    destruct (j <? blo)%nat; [now apply IH |].
    destruct (bhi <=? j)%nat; [now split |].
    set (k := (j2len_get_pred j2len j + 1)%nat).
    assert (F : forall t, (t < k)%nat ->
              (t < S i)%nat /\ (t <= j)%nat /\
              elt_at a (S i - 1 - t) = elt_at b (j - t)).
    { intros [| t'] Ht.
      - split; [lia |]. split; [lia |].
        rewrite !Nat.sub_0_r. simpl. rewrite Nat.sub_0_r.
        symmetry. apply Hjs. now left.
      - unfold k in Ht. destruct j as [| j']; cbn [j2len_get_pred] in Ht;
          [lia |].
        destruct (Hold j' t') as (H1 & H2 & H3); [lia |].
        split; [lia |]. split; [lia |].
        replace (S i - 1 - S t')%nat with (i - 1 - t')%nat by lia.
        replace (S j' - S t')%nat with (j' - t')%nat by lia.
        exact H3. }
    apply IH; [exact Hjs' | |].
    + intros j' t. cbn [j2len_get].
      destruct (Nat.eqb_spec j j') as [<- | _]; [apply F | apply Hnew].
    + destruct (match_size best <? k)%nat; [| exact Hbest].
      intros t Ht. destruct (F (k - 1 - t)%nat) as (H1 & H2 & H3); [lia |].
      destruct (F (k - 1)%nat) as (G1 & G2 & _); [lia |].
      replace (i + 1 - k + t)%nat with (S i - 1 - (k - 1 - t))%nat by lia.
      replace (j + 1 - k + t)%nat with (j - (k - 1 - t))%nat by lia.
      exact H3.
Qed.

Lemma scan_rows_matching (a b : list ascii) (blo bhi m i : nat)
      (j2len : list (nat * nat)) (best : Match) :
  row_matching a b i j2len ->
  block_matching a b best ->
  block_matching a b (scan_rows a b blo bhi (seq i m) j2len best).
Proof.
  revert i j2len best. induction m as [| m IH]; intros i j2len best Hd Hb.
  - exact Hb.
  - cbn [seq scan_rows].
    pose proof (scan_row_matching a b blo bhi i j2len
                  (b2j_get b (elt_at a i)) [] best Hd) as Hrow.
    destruct (scan_row blo bhi i j2len (b2j_get b (elt_at a i)) [] best)
      as [new best'].
    destruct Hrow as [Hd' Hb'].
    + intros j Hj. now apply b2j_get_In.
    + intros j t Ht. simpl in Ht. lia.
    + exact Hb.
    + apply IH; assumption.
Qed.

Lemma extend_left_matching (a b : list ascii) (junk : bool)
      (alo blo besti bestj bestsize : nat) :
  block_matching a b (besti, bestj, bestsize) ->
  block_matching a b (extend_left a b junk alo blo besti bestj bestsize).
Proof.
  revert bestj bestsize.
  induction besti as [| i IH]; intros bestj bestsize Hm.
  - exact Hm.
  - destruct bestj as [| j]; [exact Hm |]. cbn [extend_left].
    destruct (Ascii.eqb_spec (elt_at a i) (elt_at b j)) as [E | N];
      [| rewrite andb_false_r; exact Hm].
    destruct ((alo <? S i)%nat && (blo <? S j)%nat &&
              Bool.eqb (isbjunk (elt_at b j)) junk); [| exact Hm].
    cbn [andb]. apply IH. intros [| t] Ht.
    + now rewrite !Nat.add_0_r.
    + replace (i + S t)%nat with (S i + t)%nat by lia.
      replace (j + S t)%nat with (S j + t)%nat by lia.
      apply Hm. lia.
Qed.

Lemma extend_right_matching (a b : list ascii) (junk : bool)
      (steps ahi bhi besti bestj bestsize : nat) :
  block_matching a b (besti, bestj, bestsize) ->
  block_matching a b
    (extend_right a b junk steps ahi bhi besti bestj bestsize).
Proof.
  revert bestsize.
  induction steps as [| steps IH]; intros bestsize Hm.
  - exact Hm.
  - cbn [extend_right].
    destruct (Ascii.eqb_spec (elt_at a (besti + bestsize))
                             (elt_at b (bestj + bestsize))) as [E | N];
      [| rewrite andb_false_r; exact Hm].
    destruct ((besti + bestsize <? ahi)%nat && (bestj + bestsize <? bhi)%nat &&
              Bool.eqb (isbjunk (elt_at b (bestj + bestsize))) junk);
      [| exact Hm].
    cbn [andb]. apply IH. intros t Ht.
    destruct (Nat.eq_dec t bestsize) as [-> | Nt]; [exact E |].
    apply Hm. lia.
Qed.

Lemma extend_matching (a b : list ascii) (junk : bool)
      (alo ahi blo bhi : nat) (m : Match) :
  block_matching a b m ->
  block_matching a b (extend a b junk alo ahi blo bhi m).
Proof.
  intros Hm. destruct m as [[bi bj] bs]. unfold extend.
  pose proof (extend_left_matching a b junk alo blo bi bj bs Hm) as Hl.
  destruct (extend_left a b junk alo blo bi bj bs) as [[bi1 bj1] bs1].
  now apply extend_right_matching.
Qed.

Lemma find_longest_match_matching (a b : list ascii) (alo ahi blo bhi : nat) :
  block_matching a b (find_longest_match a b alo ahi blo bhi).
Proof.
  unfold find_longest_match. do 2 apply extend_matching.
  apply scan_rows_matching.
  - intros j t Ht. simpl in Ht. lia.
  - intros t Ht. lia.
Qed.

Lemma blocks_loop_genuine (a b : list ascii) (fuel : nat) :
  forall queue matching_blocks out,
    Forall (range_within a b) queue ->
    Forall (genuine_block a b) matching_blocks ->
    blocks_loop a b fuel queue matching_blocks = Some out ->
    Forall (genuine_block a b) out.
Proof.
  induction fuel as [| fuel IH]; intros queue mb out Hq Hmb Hloop.
  - destruct queue as [| [[[alo ahi] blo] bhi] queue]; [| discriminate].
    now injection Hloop as <-.
  - destruct queue as [| [[[alo ahi] blo] bhi] queue].
    + now injection Hloop as <-.
    + cbn [blocks_loop] in Hloop.
      inversion Hq as [| q qs Hr Hq']; subst. destruct Hr as [Ha Hb].
      pose proof (find_longest_match_inside a b alo ahi blo bhi
                    (proj1 Ha) (proj1 Hb)) as Hin.
      pose proof (find_longest_match_matching a b alo ahi blo bhi) as Hm.
      destruct (find_longest_match a b alo ahi blo bhi) as [[i j] k].
      cbv beta iota in Hin. destruct Hin as (Hi & Hik & Hj & Hjk).
      destruct (k =? 0)%nat; [now apply (IH queue mb) |].
      apply IH in Hloop; [exact Hloop | |].
      * destruct (Nat.ltb_spec alo i), (Nat.ltb_spec blo j),
          (Nat.ltb_spec (i + k) ahi), (Nat.ltb_spec (j + k) bhi);
          cbn [andb]; repeat constructor; try assumption; lia.
      * apply Forall_app. split; [exact Hmb |].
        constructor; [| constructor]. split; [| exact Hm].
        unfold block_inside. lia.
Qed.

Lemma collapse_genuine (a b : list ascii) (blocks : list Match)
      (i1 j1 k1 : nat) (non_adjacent : list Match) :
  Forall (genuine_block a b) blocks ->
  genuine_block a b (i1, j1, k1) ->
  Forall (genuine_block a b) non_adjacent ->
  Forall (genuine_block a b) (collapse blocks i1 j1 k1 non_adjacent).
Proof.
  revert i1 j1 k1 non_adjacent.
  induction blocks as [| [[i2 j2] k2] blocks IH];
    intros i1 j1 k1 acc Hb H1 Hacc.
  - cbn [collapse]. destruct (k1 =? 0)%nat; [exact Hacc |].
    apply Forall_app. split; [exact Hacc | now constructor].
  - cbn [collapse]. inversion Hb as [| x xs H2 Hb']; subst.
    destruct (Nat.eqb_spec (i1 + k1) i2) as [Ei | Ni]; cbn [andb].
    + destruct (Nat.eqb_spec (j1 + k1) j2) as [Ej | Nj].
      * apply IH; [exact Hb' | | exact Hacc].
        destruct H1 as [Hin1 Hm1], H2 as [Hin2 Hm2].
        split.
        -- unfold block_inside in *. lia.
        -- intros t Ht. destruct (Nat.ltb_spec t k1) as [Hlt | Hge].
           ++ now apply Hm1.
           ++ replace (i1 + t)%nat with (i2 + (t - k1))%nat by lia.
              replace (j1 + t)%nat with (j2 + (t - k1))%nat by lia.
              apply Hm2. lia.
      * apply IH; [exact Hb' | exact H2 |].
        destruct (k1 =? 0)%nat; [exact Hacc |].
        apply Forall_app. split; [exact Hacc | now constructor].
    + apply IH; [exact Hb' | exact H2 |].
      destruct (k1 =? 0)%nat; [exact Hacc |].
      apply Forall_app. split; [exact Hacc | now constructor].
Qed.

(** X15.  Every block [get_matching_blocks] reports lies within both sequences
    and is a common substring: the elements of [a] from [i] and of [b]
    from [j] agree over the whole size of the block. *)
Theorem get_matching_blocks_genuine (a b : list ascii) (blocks : list Match) :
  get_matching_blocks a b = Some blocks ->
  Forall (genuine_block a b) blocks.
Proof.
  intros H. destruct (get_matching_blocks_inv a b blocks H)
    as (raw & Hraw & -> & _).
  apply blocks_loop_genuine in Hraw.
  - apply Forall_app. split.
    + apply collapse_genuine.
      * eapply Permutation_Forall; [apply MatchSort.Permuted_sort | exact Hraw].
      * split; [unfold block_inside; lia | intros t Ht; lia].
      * constructor.
    + constructor; [| constructor].
      split; [unfold block_inside; lia | intros t Ht; lia].
  - constructor; [| constructor]. unfold range_within. lia.
  - constructor.
Qed.

Lemma get_matching_blocks_genuine_witness :
  Forall (genuine_block (list_ascii_of_string "abcd")
                        (list_ascii_of_string "bcde"))
         [(1, 0, 3); (4, 4, 0)]%nat.
Proof.
  apply (get_matching_blocks_genuine (list_ascii_of_string "abcd")
                                     (list_ascii_of_string "bcde")).
  vm_compute. reflexivity.
Defined.

(** ** A ratio of 1 means equal sequences *)

Lemma range_equal_empty (a b : list ascii) (alo blo : nat) :
  range_equal a b (alo, alo, blo, blo).
Proof.
  unfold range_equal. split; [lia |]. intros t Ht. lia.
Qed.

(** A range splits into the part left of a matching block, the block and
    the part right of it. *)
Lemma range_equal_join (a b : list ascii) (alo ahi blo bhi i j k : nat) :
  (alo <= i)%nat -> (i + k <= ahi)%nat ->
  (blo <= j)%nat -> (j + k <= bhi)%nat ->
  range_equal a b (alo, i, blo, j) ->
  block_matching a b (i, j, k) ->
  range_equal a b ((i + k)%nat, ahi, (j + k)%nat, bhi) ->
  range_equal a b (alo, ahi, blo, bhi).
Proof.
  intros Hi Hik Hj Hjk [Ll Lm] Hm [Rl Rm].
  split; [lia |]. intros t Ht.
  destruct (Nat.ltb_spec t (i - alo)) as [H1 | H1]; [apply Lm; lia |].
  destruct (Nat.ltb_spec t (i - alo + k)) as [H2 | H2].
  - replace (alo + t)%nat with (i + (t - (i - alo)))%nat by lia.
    replace (blo + t)%nat with (j + (t - (i - alo)))%nat by lia.
    apply Hm. lia.
  - replace (alo + t)%nat with (i + k + (t - (i - alo + k)))%nat by lia.
    replace (blo + t)%nat with (j + k + (t - (i - alo + k)))%nat by lia.
    apply Rm. lia.
Qed.

Lemma blocks_loop_size_le_span (a b : list ascii) (fuel : nat)
      (queue : list (nat * nat * nat * nat)) (mb out : list Match) :
  Forall well_formed_range queue ->
  blocks_loop a b fuel queue mb = Some out ->
  (2 * total_size out <= 2 * total_size mb + queue_span queue)%nat.
Proof.
  intros Hwf H. apply blocks_loop_size_le in H; [| exact Hwf].
  pose proof (queue_cap_span queue). lia.
Qed.

(** When the blocks found account for every element the queue spans, the
    two sequences coincide over each range of the queue. *)
Lemma blocks_loop_tight (a b : list ascii) (fuel : nat) :
  forall queue matching_blocks out,
    Forall well_formed_range queue ->
    blocks_loop a b fuel queue matching_blocks = Some out ->
    (2 * total_size matching_blocks + queue_span queue
     <= 2 * total_size out)%nat ->
    Forall (range_equal a b) queue.
Proof.
  induction fuel as [| fuel IH]; intros queue mb out Hwf Hloop Htight.
  - destruct queue as [| [[[alo ahi] blo] bhi] queue]; [| discriminate].
    constructor.
  - destruct queue as [| [[[alo ahi] blo] bhi] queue]; [constructor |].
    cbn [blocks_loop] in Hloop.
    inversion Hwf as [| q qs Hq Hwf']; subst. destruct Hq as [Ha Hb].
    pose proof (find_longest_match_inside a b alo ahi blo bhi Ha Hb) as Hin.
    pose proof (find_longest_match_matching a b alo ahi blo bhi) as Hm.
    destruct (find_longest_match a b alo ahi blo bhi) as [[i j] k].
    cbv beta iota in Hin. destruct Hin as (Hi & Hik & Hj & Hjk).
    cbn [queue_span] in Htight.
    destruct (k =? 0)%nat eqn:Ek.
    + (* nothing matches in this range: it must be empty *)
      pose proof (blocks_loop_size_le_span a b fuel queue mb out Hwf' Hloop)
        as Hup.
      constructor.
      * assert (ahi = alo) by lia. assert (bhi = blo) by lia. subst.
        apply range_equal_empty.
      * apply (IH queue mb out); [exact Hwf' | exact Hloop | lia].
    + apply Nat.eqb_neq in Ek.
      assert (HwfL : well_formed_range (alo, i, blo, j))
        by (unfold well_formed_range; lia).
      assert (HwfR : well_formed_range ((i + k)%nat, ahi, (j + k)%nat, bhi))
        by (unfold well_formed_range; lia).
      assert (Hparts :
                range_equal a b (alo, i, blo, j) /\
                range_equal a b ((i + k)%nat, ahi, (j + k)%nat, bhi) /\
                Forall (range_equal a b) queue).
      { destruct ((alo <? i)%nat && (blo <? j)%nat);
          destruct ((i + k <? ahi)%nat && (j + k <? bhi)%nat).
        - (* both neighbouring ranges are searched *)
          assert (Hwf2 : Forall well_formed_range
                           (((i + k)%nat, ahi, (j + k)%nat, bhi)
                              :: (alo, i, blo, j) :: queue))
            by (repeat constructor; assumption).
          assert (Hall := IH _ _ _ Hwf2 Hloop).
          rewrite total_size_app, total_size_single in Hall.
          cbn [queue_span] in Hall.
          assert (Hq : Forall (range_equal a b)
                         (((i + k)%nat, ahi, (j + k)%nat, bhi)
                            :: (alo, i, blo, j) :: queue))
            by (apply Hall; lia).
          inversion Hq as [| ? ? HR Hq1]; subst.
          inversion Hq1 as [| ? ? HL Hq2]; subst.
          split; [exact HL |]. split; [exact HR | exact Hq2].
        - (* only the left range is searched: the right one is empty *)
          assert (Hwf2 : Forall well_formed_range ((alo, i, blo, j) :: queue))
            by (repeat constructor; assumption).
          pose proof (blocks_loop_size_le_span a b fuel _ _ out Hwf2 Hloop)
            as Hup.
          assert (Hall := IH _ _ _ Hwf2 Hloop).
          rewrite total_size_app, total_size_single in Hall, Hup.
          cbn [queue_span] in Hall, Hup.
          assert (Hq : Forall (range_equal a b) ((alo, i, blo, j) :: queue))
            by (apply Hall; lia).
          inversion Hq as [| ? ? HL Hq1]; subst.
          assert (ahi = (i + k)%nat) by lia.
          assert (bhi = (j + k)%nat) by lia. subst.
          split; [exact HL |]. split; [apply range_equal_empty | exact Hq1].
        - (* only the right range is searched: the left one is empty *)
          assert (Hwf2 : Forall well_formed_range
                           (((i + k)%nat, ahi, (j + k)%nat, bhi) :: queue))
            by (repeat constructor; assumption).
          pose proof (blocks_loop_size_le_span a b fuel _ _ out Hwf2 Hloop)
            as Hup.
          assert (Hall := IH _ _ _ Hwf2 Hloop).
          rewrite total_size_app, total_size_single in Hall, Hup.
          cbn [queue_span] in Hall, Hup.
          assert (Hq : Forall (range_equal a b)
                         (((i + k)%nat, ahi, (j + k)%nat, bhi) :: queue))
            by (apply Hall; lia).
          inversion Hq as [| ? ? HR Hq1]; subst.
          assert (i = alo) by lia. assert (j = blo) by lia. subst.
          split; [apply range_equal_empty |]. split; [exact HR | exact Hq1].
        - (* neither range is searched: both are empty *)
          pose proof (blocks_loop_size_le_span a b fuel _ _ out Hwf' Hloop)
            as Hup.
          assert (Hall := IH _ _ _ Hwf' Hloop).
          rewrite total_size_app, total_size_single in Hall, Hup.
          assert (Hq : Forall (range_equal a b) queue)
            by (apply Hall; lia).
          assert (i = alo) by lia. assert (j = blo) by lia.
          assert (ahi = (i + k)%nat) by lia.
          assert (bhi = (j + k)%nat) by lia. subst.
          split; [apply range_equal_empty |].
          split; [apply range_equal_empty | exact Hq]. }
      destruct Hparts as (HL & HR & Hq).
      constructor; [| exact Hq].
      apply (range_equal_join a b alo ahi blo bhi i j k); assumption.
Qed.

Lemma range_equal_whole (a b : list ascii) :
  range_equal a b (0, length a, 0, length b)%nat -> a = b.
Proof.
  intros [Hl Hm]. rewrite !Nat.sub_0_r in *.
  apply (nth_ext a b zero zero); [exact Hl |].
  intros t Ht. apply (Hm t Ht).
Qed.

Lemma ratio_one_total (a b : list ascii) (blocks : list Match) :
  get_matching_blocks a b = Some blocks ->
  _calculate_ratio (total_size blocks) (length a + length b) = 1 ->
  (2 * total_size blocks = length a + length b)%nat.
Proof.
  intros Hb H. unfold _calculate_ratio in H.
  destruct (Nat.eqb_spec (length a + length b) 0) as [E | N].
  - pose proof (get_matching_blocks_size_le a b blocks Hb). lia.
  - assert (Hpos : 0 < INR (length a + length b))
      by (apply lt_0_INR; lia).
    assert (Hq : 2 * INR (total_size blocks) = INR (length a + length b)).
    { apply (Rmult_eq_reg_r (/ INR (length a + length b)));
        [| apply Rinv_neq_0_compat; lra].
      rewrite Rinv_r by lra. exact H. }
    apply INR_eq. rewrite mult_INR. simpl. lra.
Qed.

(** The sequence-matching ratio is 1 exactly when the two sequences are
    equal. *)
Lemma ratio_one_iff (a b : list ascii) :
  ratio a b = Some 1 <-> a = b.
Proof.
  split.
  - intros H. unfold ratio in H.
    destruct (get_matching_blocks a b) as [blocks |] eqn:Hb; [| discriminate].
    injection H as H. fold (total_size blocks) in H.
    pose proof (ratio_one_total a b blocks Hb H) as Ht.
    destruct (get_matching_blocks_inv a b blocks Hb)
      as (raw & Hraw & _ & Hsz).
    apply range_equal_whole.
    assert (Hwf : Forall well_formed_range [(0, length a, 0, length b)%nat])
      by (repeat constructor; lia).
    pose proof (blocks_loop_tight a b _ _ _ _ Hwf Hraw) as Hall.
    assert (Hq : Forall (range_equal a b) [(0, length a, 0, length b)%nat]).
    { apply Hall. unfold total_size at 1. simpl.
      rewrite !Nat.sub_0_r. lia. }
    now inversion Hq.
  - intros <-. destruct a as [| c a].
    + rewrite ratio_no_common by apply no_common_element_nil_l. reflexivity.
    + apply ratio_self. discriminate.
Qed.

(** A fingerprint is fully similar to itself. *)
Lemma fingerprint_similarity_refl (fp : string) :
  calculate_fingerprint_similarity fp fp = Some 1.
Proof.
  unfold calculate_fingerprint_similarity. now apply ratio_one_iff.
Qed.

(** X16.  The fingerprint similarity is 1.0 exactly for equal fingerprints. *)
Theorem calculate_fingerprint_similarity_one_iff (fp1 fp2 : string) :
  calculate_fingerprint_similarity fp1 fp2 = Some 1 <-> fp1 = fp2.
Proof.
  unfold calculate_fingerprint_similarity. rewrite ratio_one_iff.
  split.
  - intros H.
    rewrite <- (string_of_list_ascii_of_string fp1),
            <- (string_of_list_ascii_of_string fp2).
    now rewrite H.
  - now intros ->.
Qed.

(* ================================================================== *)
(** * Properties of the two comparison methods *)

Lemma py_div_cases (x y : R) :
  py_div x y = Raise ZeroDivisionError \/ py_div x y = Ok (x / y).
Proof.
  unfold py_div. destruct (Req_dec_T y 0); [now left | now right].
Qed.

Lemma IZR_neq0 (z : Z) : z <> 0%Z -> IZR z <> 0.
Proof. intros H E. apply H. now apply eq_IZR_R0. Qed.

(** ** [compare_audio_files_acoustid] and [investigate_acoustid_limitation] *)

(** The AcoustID comparison always returns, with the fingerprint
    similarity in both result fields. *)
Lemma acoustid_returns (d1 d2 : R) (fp1 fp2 : string) :
  exists s,
    calculate_fingerprint_similarity fp1 fp2 = Some s /\ 0 <= s <= 1 /\
    compare_audio_files_acoustid d1 fp1 d2 fp2 =
      Some {| Acoustid.method := "acoustid";
              Acoustid.fingerprint1 := fp1;
              Acoustid.fingerprint2 := fp2;
              Acoustid.fingerprint_similarity := s;
              Acoustid.overall_similarity := s;
              Acoustid.duration1 := d1;
              Acoustid.duration2 := d2 |}.
Proof.
  destruct (ratio_range (list_ascii_of_string fp1)
                        (list_ascii_of_string fp2)) as [s [Hs Hr]].
  change (calculate_fingerprint_similarity fp1 fp2 = Some s) in Hs.
  exists s. split; [exact Hs |]. split; [exact Hr |].
  unfold compare_audio_files_acoustid. rewrite Hs. reflexivity.
Qed.

(** X17.  The AcoustID comparison always returns; its overall similarity is the
    fingerprint similarity, lies between 0 and 1, and is 1.0 exactly when
    [investigate_acoustid_limitation] reports the two fingerprints as
    identical, in which case [interpret_similarity] answers IDENTICAL. *)
Theorem acoustid_overall_similarity (d1 d2 : R) (fp1 fp2 : string) :
  exists r,
    compare_audio_files_acoustid d1 fp1 d2 fp2 = Some r /\
    Acoustid.overall_similarity r = Acoustid.fingerprint_similarity r /\
    0 <= Acoustid.overall_similarity r <= 1 /\
    (Investigation.are_identical
       (investigate_acoustid_limitation d1 fp1 d2 fp2) = true <->
     Acoustid.overall_similarity r = 1) /\
    (Acoustid.overall_similarity r = 1 ->
     label_of_message
       (interpret_similarity (Num (Acoustid.overall_similarity r))) =
     Some IDENTICAL).
Proof.
  destruct (acoustid_returns d1 d2 fp1 fp2) as (s & Hs & Hr & Hc).
  rewrite Hc. eexists. split; [reflexivity |].
  cbn [Acoustid.overall_similarity Acoustid.fingerprint_similarity].
  split; [reflexivity |]. split; [exact Hr |]. split.
  - cbn [investigate_acoustid_limitation Investigation.are_identical].
    rewrite String.eqb_eq. split.
    + intros <-. rewrite fingerprint_similarity_refl in Hs.
      now injection Hs.
    + intros ->. unfold calculate_fingerprint_similarity in Hs.
      apply ratio_one_iff in Hs.
      rewrite <- (string_of_list_ascii_of_string fp1),
              <- (string_of_list_ascii_of_string fp2).
      now rewrite Hs.
  - intros ->. apply interpret_similarity_table. simpl. lra.
Qed.

(** ** [compare_audio_files_librosa] *)

(** X18.  The librosa comparison raises [ValueError] exactly when, for one of
    the three features, the two arrays differ in length after truncation
    to 1000 (MFCC) or 100 (centroid, rolloff) entries. *)
Theorem librosa_value_error_iff (md5_hexdigest : list R -> string)
        (audio1 audio2 : LibrosaAudio) :
  compare_audio_files_librosa md5_hexdigest audio1 audio2 =
    Some (Raise ValueError) <->
  (Nat.min 1000 (length (mfcc audio1)) <>
     Nat.min 1000 (length (mfcc audio2)) \/
   Nat.min 100 (length (spectral_centroid audio1)) <>
     Nat.min 100 (length (spectral_centroid audio2)) \/
   Nat.min 100 (length (spectral_rolloff audio1)) <>
     Nat.min 100 (length (spectral_rolloff audio2))).
Proof.
  rewrite <- !length_firstn.
  unfold compare_audio_files_librosa, calculate_fingerprint_similarity.
  destruct (ratio_range
              (list_ascii_of_string
                 (md5_hexdigest
                    (firstn 1000 (mfcc audio1)
                       ++ firstn 100 (spectral_centroid audio1)
                       ++ firstn 100 (spectral_rolloff audio1))))
              (list_ascii_of_string
                 (md5_hexdigest
                    (firstn 1000 (mfcc audio2)
                       ++ firstn 100 (spectral_centroid audio2)
                       ++ firstn 100 (spectral_rolloff audio2)))))
    as [s [-> _]].
  destruct (Nat.eq_dec (length (firstn 1000 (mfcc audio1)))
                       (length (firstn 1000 (mfcc audio2)))) as [Em | Nm].
  2:{ rewrite (corrcoef_length_mismatch _ _ Nm). cbn [bind].
      split; [intros _; now left | reflexivity]. }
  destruct (corrcoef_same_length _ _ Em) as [m ->]. cbn [bind].
  destruct (Nat.eq_dec (length (firstn 100 (spectral_centroid audio1)))
                       (length (firstn 100 (spectral_centroid audio2))))
    as [Ec | Nc].
  2:{ rewrite (corrcoef_length_mismatch _ _ Nc). cbn [bind].
      split; [intros _; right; now left | reflexivity]. }
  destruct (corrcoef_same_length _ _ Ec) as [c ->]. cbn [bind].
  destruct (Nat.eq_dec (length (firstn 100 (spectral_rolloff audio1)))
                       (length (firstn 100 (spectral_rolloff audio2))))
    as [Er | Nr].
  2:{ rewrite (corrcoef_length_mismatch _ _ Nr). cbn [bind].
      split; [intros _; right; now right | reflexivity]. }
  destruct (corrcoef_same_length _ _ Er) as [ro ->]. cbn [bind].
  split; [| tauto].
  destruct (py_div_cases (INR (samples audio1)) (IZR (sr audio1)))
    as [-> | ->]; cbn [bind]; [discriminate |].
  destruct (py_div_cases (INR (samples audio2)) (IZR (sr audio2)))
    as [-> | ->]; cbn [bind]; discriminate.
Qed.

(** What the librosa comparison returns when the truncated arrays have
    equal lengths and the sampling rates are not zero. *)
Lemma librosa_returns (md5_hexdigest : list R -> string)
      (audio1 audio2 : LibrosaAudio) :
  length (firstn 1000 (mfcc audio1)) = length (firstn 1000 (mfcc audio2)) ->
  length (firstn 100 (spectral_centroid audio1)) =
    length (firstn 100 (spectral_centroid audio2)) ->
  length (firstn 100 (spectral_rolloff audio1)) =
    length (firstn 100 (spectral_rolloff audio2)) ->
  sr audio1 <> 0%Z -> sr audio2 <> 0%Z ->
  exists r s m c ro,
    compare_audio_files_librosa md5_hexdigest audio1 audio2 = Some (Ok r) /\
    calculate_fingerprint_similarity (Librosa.fingerprint1 r)
                                     (Librosa.fingerprint2 r) = Some s /\
    corrcoef (firstn 1000 (mfcc audio1)) (firstn 1000 (mfcc audio2)) = Ok m /\
    corrcoef (firstn 100 (spectral_centroid audio1))
             (firstn 100 (spectral_centroid audio2)) = Ok c /\
    corrcoef (firstn 100 (spectral_rolloff audio1))
             (firstn 100 (spectral_rolloff audio2)) = Ok ro /\
    Librosa.fingerprint_similarity r = s /\
    Librosa.mfcc_similarity r = m /\
    Librosa.centroid_similarity r = c /\
    Librosa.rolloff_similarity r = ro /\
    Librosa.overall_similarity r =
      float_div_literal
        (float_add (float_add (float_add (Num s) m) c) ro) 4.
Proof.
  intros Em Ec Er Hs1 Hs2.
  unfold compare_audio_files_librosa.
  set (fp1 := md5_hexdigest _). set (fp2 := md5_hexdigest _).
  destruct (ratio_range (list_ascii_of_string fp1)
                        (list_ascii_of_string fp2)) as [s [Hs _]].
  change (calculate_fingerprint_similarity fp1 fp2 = Some s) in Hs.
  rewrite Hs.
  destruct (corrcoef_same_length _ _ Em) as [m Hm].
  destruct (corrcoef_same_length _ _ Ec) as [c Hc].
  destruct (corrcoef_same_length _ _ Er) as [ro Hro].
  rewrite Hm, Hc, Hro. cbn [bind].
  rewrite !py_div_ok by now apply IZR_neq0. cbn [bind].
  eexists. exists s, m, c, ro.
  split; [reflexivity |]. cbn.
  repeat split; assumption.
Qed.

(** X19.  Whenever the librosa comparison returns, its overall similarity is
    [nan] or a number between -3/4 and 1: the fingerprint similarity is
    at least 0 and each of the three correlations at least -1. *)
Theorem librosa_overall_range (md5_hexdigest : list R -> string)
        (audio1 audio2 : LibrosaAudio) (r : Librosa.results) :
  compare_audio_files_librosa md5_hexdigest audio1 audio2 = Some (Ok r) ->
  0 <= Librosa.fingerprint_similarity r <= 1 /\
  (Librosa.overall_similarity r = NaN \/
   exists x, Librosa.overall_similarity r = Num x /\ - (3 / 4) <= x <= 1).
Proof.
  unfold compare_audio_files_librosa.
  set (fp1 := md5_hexdigest _). set (fp2 := md5_hexdigest _).
  destruct (ratio_range (list_ascii_of_string fp1)
                        (list_ascii_of_string fp2)) as [s [Hfp Hs]].
  change (calculate_fingerprint_similarity fp1 fp2 = Some s) in Hfp.
  rewrite Hfp.
  destruct (corrcoef _ _) as [m |] eqn:Hm; [| discriminate].
  destruct (corrcoef (firstn 100 (spectral_centroid audio1)) _)
    as [c |] eqn:Hc; [| discriminate].
  destruct (corrcoef (firstn 100 (spectral_rolloff audio1)) _)
    as [ro |] eqn:Hro; [| discriminate].
  cbn [bind].
  destruct (py_div _ _) as [du1 |]; [| discriminate].
  destruct (py_div _ _) as [du2 |]; [| discriminate].
  cbn [bind]. intros H. injection H as <-. cbn.
  split; [exact Hs |].
  destruct m as [xm |]; [| now left].
  destruct c as [xc |]; [| now left].
  destruct ro as [xr |]; [| now left].
  right. eexists. split; [reflexivity |].
  apply corrcoef_range in Hm, Hc, Hro. lra.
Qed.

Lemma librosa_overall_range_witness :
  exists r,
    compare_audio_files_librosa sample_hexdigest audio_varying audio_steady
      = Some (Ok r) /\
    0 <= Librosa.fingerprint_similarity r <= 1 /\
    (Librosa.overall_similarity r = NaN \/
     exists x, Librosa.overall_similarity r = Num x /\ - (3 / 4) <= x <= 1).
Proof.
  assert (H1 : length (firstn 1000 (mfcc audio_varying)) =
               length (firstn 1000 (mfcc audio_steady))) by reflexivity.
  assert (H2 : length (firstn 100 (spectral_centroid audio_varying)) =
               length (firstn 100 (spectral_centroid audio_steady)))
    by reflexivity.
  assert (H3 : length (firstn 100 (spectral_rolloff audio_varying)) =
               length (firstn 100 (spectral_rolloff audio_steady)))
    by reflexivity.
  assert (H4 : sr audio_varying <> 0%Z) by discriminate.
  assert (H5 : sr audio_steady <> 0%Z) by discriminate.
  destruct (librosa_returns sample_hexdigest audio_varying audio_steady
              H1 H2 H3 H4 H5) as (r & s & m & c & ro & Hr & _).
  exists r. split; [exact Hr |].
  apply (librosa_overall_range sample_hexdigest audio_varying audio_steady
                               r Hr).
Defined.

(** ** [main_comparison] *)






(* ================================================================== *)
(** * Properties of [compare_fingerprints] *)

Lemma matching_positions_cons (x y : ascii) (a b : list ascii) :
  matching_positions (x :: a) (y :: b) =
  ((if Ascii.eqb x y then 1 else 0) + matching_positions a b)%nat.
Proof.
  unfold matching_positions. cbn [combine filter fst snd].
  destruct (Ascii.eqb x y); reflexivity.
Qed.

Lemma matching_positions_le_min (a b : list ascii) :
  (matching_positions a b <= Nat.min (length a) (length b))%nat.
Proof.
  revert b. induction a as [| x a IH]; intros [| y b];
    try (unfold matching_positions; simpl; lia).
  rewrite matching_positions_cons. specialize (IH b).
  destruct (Ascii.eqb x y); simpl; lia.
Qed.

Lemma matching_positions_comm (a b : list ascii) :
  matching_positions a b = matching_positions b a.
Proof.
  revert b. induction a as [| x a IH]; intros [| y b];
    try reflexivity.
  rewrite !matching_positions_cons, IH.
  destruct (Ascii.eqb_spec x y) as [-> | N].
  - now rewrite Ascii.eqb_refl.
  - destruct (Ascii.eqb_spec y x) as [E | _]; [now elim N | reflexivity].
Qed.

Lemma matching_positions_refl (a : list ascii) :
  matching_positions a a = length a.
Proof.
  induction a as [| x a IH]; [reflexivity |].
  rewrite matching_positions_cons, Ascii.eqb_refl, IH. reflexivity.
Qed.

Lemma matching_positions_full (a b : list ascii) :
  matching_positions a b = Nat.max (length a) (length b) -> a = b.
Proof.
  revert b. induction a as [| x a IH]; intros [| y b] H.
  - reflexivity.
  - unfold matching_positions in H. simpl in H. discriminate.
  - unfold matching_positions in H. simpl in H. discriminate.
  - rewrite matching_positions_cons in H. simpl in H.
    pose proof (matching_positions_le_min a b) as Hle.
    destruct (Ascii.eqb_spec x y) as [-> | N]; [| lia].
    f_equal. apply IH. lia.
Qed.

Lemma positional_similarity_Some (a b : list ascii) :
  a <> [] \/ b <> [] ->
  positional_similarity a b =
  Some (INR (matching_positions a b) /
        INR (Nat.max (length a) (length b))).
Proof.
  intros H. unfold positional_similarity, int_true_div.
  destruct (Nat.eqb_spec (Nat.max (length a) (length b)) 0) as [E | _];
    [| reflexivity].
  exfalso. destruct a, b; simpl in E; try lia.
  destruct H as [H | H]; now elim H.
Qed.

(** X22.  The positional similarity is undefined (the division raises) exactly
    when both fingerprints are empty, and otherwise lies between 0 and
    1. *)
Theorem positional_similarity_range (fp1 fp2 : list ascii) :
  (positional_similarity fp1 fp2 = None <-> fp1 = [] /\ fp2 = []) /\
  (forall s, positional_similarity fp1 fp2 = Some s -> 0 <= s <= 1).
Proof.
  split.
  - split.
    + intros H. destruct fp1 as [| x a], fp2 as [| y b]; auto;
        rewrite positional_similarity_Some in H;
        try discriminate; (now left) || (now right).
    + intros [-> ->]. reflexivity.
  - intros s H. unfold positional_similarity, int_true_div in H.
    destruct (Nat.eqb_spec (Nat.max (length fp1) (length fp2)) 0)
      as [E | N]; [discriminate |].
    injection H as <-.
    pose proof (matching_positions_le_min fp1 fp2) as Hle.
    assert (Hpos : 0 < INR (Nat.max (length fp1) (length fp2)))
      by (apply lt_0_INR; lia).
    assert (Hc : INR (matching_positions fp1 fp2) <=
                 INR (Nat.max (length fp1) (length fp2)))
      by (apply le_INR; lia).
    pose proof (pos_INR (matching_positions fp1 fp2)) as H0.
    split.
    + apply Rmult_le_pos; [exact H0 |]. left. now apply Rinv_0_lt_compat.
    + apply (Rmult_le_reg_r (INR (Nat.max (length fp1) (length fp2))));
        [exact Hpos |].
      unfold Rdiv. rewrite Rmult_assoc, Rinv_l by lra. lra.
Qed.

(** A non-empty fingerprint is fully similar to itself. *)
Lemma positional_similarity_refl (fp1 : list ascii) :
  fp1 <> [] -> positional_similarity fp1 fp1 = Some 1.
Proof.
  intros Hne. rewrite positional_similarity_Some by now left.
  rewrite matching_positions_refl, Nat.max_id.
  f_equal. field.
  assert (0 < INR (length fp1)); [| lra].
  apply lt_0_INR. destruct fp1; [now elim Hne | simpl; lia].
Qed.

(** Only equal, non-empty fingerprints are fully similar. *)
Lemma positional_similarity_one_equal (fp1 fp2 : list ascii) :
  positional_similarity fp1 fp2 = Some 1 -> fp1 = fp2 /\ fp1 <> [].
Proof.
  intros H. unfold positional_similarity, int_true_div in H.
  destruct (Nat.eqb_spec (Nat.max (length fp1) (length fp2)) 0)
    as [E | N]; [discriminate |].
  injection H as H.
  assert (Hpos : 0 < INR (Nat.max (length fp1) (length fp2)))
    by (apply lt_0_INR; lia).
  assert (Hq : INR (matching_positions fp1 fp2) =
               INR (Nat.max (length fp1) (length fp2))).
  { apply (Rmult_eq_reg_r (/ INR (Nat.max (length fp1) (length fp2))));
      [| apply Rinv_neq_0_compat; lra].
    rewrite Rinv_r by lra. exact H. }
  apply INR_eq in Hq. apply matching_positions_full in Hq.
  split; [exact Hq |]. subst fp2. intros ->. simpl in N. lia.
Qed.

(** X23.  The positional similarity is 1.0 exactly for two equal, non-empty
    fingerprints. *)
Theorem positional_similarity_one_iff (fp1 fp2 : list ascii) :
  positional_similarity fp1 fp2 = Some 1 <-> fp1 = fp2 /\ fp1 <> [].
Proof.
  split.
  - apply positional_similarity_one_equal.
  - intros [<- Hne]. now apply positional_similarity_refl.
Qed.

(** X24.  The positional similarity does not depend on the order of the two
    fingerprints. *)
Theorem positional_similarity_comm (fp1 fp2 : list ascii) :
  positional_similarity fp1 fp2 = positional_similarity fp2 fp1.
Proof.
  unfold positional_similarity.
  now rewrite matching_positions_comm, Nat.max_comm.
Qed.

Lemma matching_positions_prefix (fp ext : list ascii) :
  matching_positions fp (fp ++ ext) = length fp.
Proof.
  induction fp as [| x fp IH]; [reflexivity |].
  cbn [app]. rewrite matching_positions_cons, Ascii.eqb_refl, IH.
  reflexivity.
Qed.

(** X25.  A fingerprint compared with an extension of itself scores its own
    length over the longer length; when the extension is at least as long
    as the fingerprint the printed verdict is "Different audio files",
    although one fingerprint is a prefix of the other. *)
Theorem positional_similarity_prefix (fp ext : list ascii) :
  fp <> [] ->
  positional_similarity fp (fp ++ ext) =
    Some (INR (length fp) / INR (length fp + length ext)) /\
  ((length fp <= length ext)%nat ->
   similarity_verdict (INR (length fp) / INR (length fp + length ext)) =
   "Result: Different audio files"%string).
Proof.
  intros Hne.
  assert (Hpos : 0 < INR (length fp))
    by (apply lt_0_INR; destruct fp; [now elim Hne | simpl; lia]).
  split.
  - rewrite positional_similarity_Some by now left.
    rewrite matching_positions_prefix, length_app.
    now replace (Nat.max (length fp) (length fp + length ext))
      with (length fp + length ext)%nat by lia.
  - intros Hle. apply le_INR in Hle.
    rewrite plus_INR.
    assert (Hq : INR (length fp) / (INR (length fp) + INR (length ext))
                 <= 0.5).
    { apply (Rmult_le_reg_r (INR (length fp) + INR (length ext)));
        [lra |].
      unfold Rdiv. rewrite Rmult_assoc, Rinv_l by lra. lra. }
    unfold similarity_verdict.
    destruct (Rlt_dec 0.9 _); [lra |].
    destruct (Rlt_dec 0.7 _); [lra |].
    destruct (Rlt_dec 0.5 _); [lra | reflexivity].
Qed.

Lemma positional_similarity_prefix_witness :
  positional_similarity (list_ascii_of_string "AQAB")
                        (list_ascii_of_string "AQAB" ++
                         list_ascii_of_string "z9Xk") =
    Some (INR 4 / INR (4 + 4)) /\
  ((4 <= 4)%nat ->
   similarity_verdict (INR 4 / INR (4 + 4)) =
   "Result: Different audio files"%string).
Proof.
  apply (positional_similarity_prefix (list_ascii_of_string "AQAB")
                                      (list_ascii_of_string "z9Xk")).
  discriminate.
Defined.

(** X26.  The positional similarity of [compare_fingerprints] and the
    sequence-matching ratio behind [calculate_fingerprint_similarity]
    agree on which non-empty fingerprints are fully similar: either is 1.0
    exactly when the fingerprints are equal. *)
Theorem positional_and_sequence_similarity_agree (fp1 fp2 : list ascii) :
  fp1 <> [] ->
  (positional_similarity fp1 fp2 = Some 1 <-> ratio fp1 fp2 = Some 1).
Proof.
  intros Hne. rewrite ratio_one_iff. split.
  - intros H. now apply positional_similarity_one_equal in H.
  - intros <-. now apply positional_similarity_refl.
Qed.

Lemma positional_and_sequence_similarity_agree_witness :
  positional_similarity (list_ascii_of_string "AQAB")
                        (list_ascii_of_string "AQAB") = Some 1 <->
  ratio (list_ascii_of_string "AQAB") (list_ascii_of_string "AQAB") = Some 1.
Proof.
  apply (positional_and_sequence_similarity_agree
           (list_ascii_of_string "AQAB") (list_ascii_of_string "AQAB")).
  discriminate.
Defined.

(** X27.  [compare_fingerprints] never raises.  A similarity is stored exactly
    when no error was recorded, at most one error is recorded, the second
    file has a fingerprint only if the first has one, and two empty
    fingerprints leave the similarity unset with the error
    "division by zero". *)
Theorem compare_fingerprints_errors (path1 path2 : string)
        (call1 call2 : fingerprint_call) :
  (Fingerprints.similarity
     (compare_fingerprints path1 path2 call1 call2) = None <->
   Fingerprints.errors
     (compare_fingerprints path1 path2 call1 call2) <> []) /\
  (length (Fingerprints.errors
             (compare_fingerprints path1 path2 call1 call2)) <= 1)%nat /\
  (Fingerprints.fingerprint
     (Fingerprints.file2
        (compare_fingerprints path1 path2 call1 call2)) <> None ->
   Fingerprints.fingerprint
     (Fingerprints.file1
        (compare_fingerprints path1 path2 call1 call2)) <> None) /\
  (forall d1 d2, call1 = Returned d1 [] -> call2 = Returned d2 [] ->
     Fingerprints.similarity
       (compare_fingerprints path1 path2 call1 call2) = None /\
     Fingerprints.errors
       (compare_fingerprints path1 path2 call1 call2) =
     ["division by zero"%string]).
Proof.
  unfold compare_fingerprints.
  destruct call1 as [d1 fp1 | msg1].
  - destruct call2 as [d2 fp2 | msg2].
    + destruct (positional_similarity fp1 fp2) as [s |] eqn:Hs; cbn.
      * split; [split; [discriminate | intros H; now elim H] |].
        split; [lia |]. split; [discriminate |].
        intros d1' d2' E1 E2. injection E1 as _ ->. injection E2 as _ ->.
        unfold positional_similarity, int_true_div in Hs. simpl in Hs.
        discriminate.
      * split; [split; [discriminate | reflexivity] |].
        split; [lia |]. split; [discriminate |].
        intros d1' d2' _ _. split; reflexivity.
    + cbn. split; [split; [discriminate | reflexivity] |].
      split; [lia |]. split; [intros H; now elim H | discriminate].
  - cbn. split; [split; [discriminate | reflexivity] |].
    split; [lia |]. split; [intros H; now elim H | discriminate].
Qed.

(** X28.  Two files whose fingerprints are equal and non-empty: the similarity
    is 1.0, no error is recorded, both fingerprints and durations are
    stored, and the printed verdict is "Very similar". *)
Theorem compare_fingerprints_identical (path1 path2 : string) (d1 d2 : R)
        (fp : list ascii) :
  fp <> [] ->
  exists r,
    compare_fingerprints path1 path2 (Returned d1 fp) (Returned d2 fp) = r /\
    Fingerprints.similarity r = Some 1 /\
    Fingerprints.errors r = [] /\
    Fingerprints.file1 r = Fingerprints.mk_file path1 (Some fp) (Some d1) /\
    Fingerprints.file2 r = Fingerprints.mk_file path2 (Some fp) (Some d2) /\
    similarity_verdict 1 =
      "Result: Very similar (likely same audio)"%string.
Proof.
  intros Hne. eexists. split; [reflexivity |].
  unfold compare_fingerprints.
  rewrite (positional_similarity_refl fp Hne).
  cbn. repeat split.
  unfold similarity_verdict.
  destruct (Rlt_dec 0.9 1); [reflexivity | exfalso; lra].
Qed.

Lemma compare_fingerprints_identical_witness :
  exists r,
    compare_fingerprints "a.wav" "b.wav"
      (Returned 10 (list_ascii_of_string "AQAB"))
      (Returned 12 (list_ascii_of_string "AQAB")) = r /\
    Fingerprints.similarity r = Some 1 /\
    Fingerprints.errors r = [] /\
    Fingerprints.file1 r =
      Fingerprints.mk_file "a.wav" (Some (list_ascii_of_string "AQAB"))
                           (Some 10) /\
    Fingerprints.file2 r =
      Fingerprints.mk_file "b.wav" (Some (list_ascii_of_string "AQAB"))
                           (Some 12) /\
    similarity_verdict 1 =
      "Result: Very similar (likely same audio)"%string.
Proof.
  apply (compare_fingerprints_identical "a.wav" "b.wav" 10 12
           (list_ascii_of_string "AQAB")).
  discriminate.
Defined.
